(** * Huffman text codec of compression_encoder.py

    A shallow embedding of the Huffman codec in [src/compression_encoder.py]
    ([Node], [build_huffman_tree], [build_codes], [compress_file],
    [decompress_file]) together with the part of Python's [heapq] module and
    of [collections.Counter] the codec runs on, followed by the properties of
    the codec.

    Conventions of the embedding:
    - a Python [str] is a [list ascii] (type [str]); a symbol is one
      character, taken from the 8-bit characters [ascii] (the codec only
      compares symbols for equality); bit strings are [str]s over the
      characters ["0"] and ["1"], exactly as in the source;
    - Python integers are unbounded: frequencies are [nat], parsed bytes [N];
    - a [bytes] object is a [list byte];
    - a [dict] keeps insertion order and is an association list with unique
      keys, updated in place by [dict_set];
    - a raised exception is the left injection of [result];
    - [heapq] follows the reference implementation Lib/heapq.py, whose
      comparisons with [<] decide how ties between equal frequencies are
      broken;
    - the file system is left out: [compress_file] takes the text read from
      [input_path] and returns what is written to [output_path] and
      [codes_path]; [decompress_file] takes what is read from the two input
      files and returns what is written to [output_path];
    - [json.dump] followed by [json.load] is the identity on the values the
      codec writes ([None], or a dict from one-character strings to
      strings), so the JSON file is modelled by the value it holds. *)

From Stdlib Require Import Ascii NArith ZArith Arith Lia ZifyNat Permutation.
From Stdlib.Strings Require Import Byte.
From stdpp Require Import base list strings.

Ltac Zify.zify_post_hook ::= Z.div_mod_to_equations.

Open Scope char_scope.
Open Scope list_scope.
Open Scope nat_scope.

(** ** Python values *)

Abbreviation str := (list ascii).

(** Exceptions the modelled code can raise.  [OutOfFuel] is not a Python
    exception: it marks a loop of the model that was cut short by its fuel;
    the theorems below show that it never happens. *)
Inductive error :=
  | AttributeError | TypeError | KeyError | IndexError | ValueError | OutOfFuel.

Definition result (A : Type) : Type := error + A.
Definition raise {A} (e : error) : result A := inl e.

#[global] Instance result_ret : MRet result := fun A a => inr a.
#[global] Instance result_bind : MBind result := fun A B k m =>
  match m with inl e => inl e | inr a => k a end.

Fixpoint mapM {A B} (f : A → result B) (l : list A) : result (list B) :=
  match l with
  | [] => mret []
  | a :: l' => b ← f a; bs ← mapM f l'; mret (b :: bs)
  end.

Fixpoint foldM {A S} (f : S → A → result S) (l : list A) (s : S) : result S :=
  match l with
  | [] => mret s
  | a :: l' => s' ← f s a; foldM f l' s'
  end.

(** ** dict: insertion-ordered mapping *)

Abbreviation dict K V := (list (K * V)).

Section Dict.
Context {K V : Type} `{EqDecision K}.
Implicit Types d : dict K V.

(** [d[k] = v]: overwrite in place when [k] is present, append otherwise. *)
Fixpoint dict_set d (k : K) (v : V) : dict K V :=
  match d with
  | [] => [(k, v)]
  | (k', v') :: d' =>
      if decide (k' = k) then (k, v) :: d' else (k', v') :: dict_set d' k v
  end.

(** [d.get(k)] *)
Fixpoint dict_get d (k : K) : option V :=
  match d with
  | [] => None
  | (k', v') :: d' => if decide (k' = k) then Some v' else dict_get d' k
  end.

(** [k in d] *)
Definition dict_mem d (k : K) : bool :=
  match dict_get d k with Some _ => true | None => false end.

(** [d[k]], raising KeyError *)
Definition dict_getitem d (k : K) : result V :=
  match dict_get d k with Some v => mret v | None => raise KeyError end.

Definition dict_keys d : list K := map fst d.
End Dict.

(** [collections.Counter(text)] counts the elements in order, each with
    [mapping[elem] = mapping.get(elem, 0) + 1]. *)
Definition count_step (mapping : dict ascii nat) (elem : ascii)
    : dict ascii nat :=
  dict_set mapping elem (default 0 (dict_get mapping elem) + 1).

Definition Counter (text : str) : dict ascii nat :=
  fold_left count_step text [].

(** ** class Node *)

#[warnings="-register-all"]
Inductive Node := mkNode {
  char : option ascii;
  freq : nat;
  left : option Node;
  right : option Node
}.

(** [Node(char, freq)] and [Node(freq=f)] *)
Definition Node_init (char : option ascii) (freq : nat) : Node :=
  mkNode char freq None None.

(** [Node.__lt__] *)
Definition Node_lt (self other : Node) : bool := freq self <? freq other.

(** ** list primitives *)

(** [l[i]] and [l[i] = a], raising IndexError out of range *)
Definition getitem {A} (l : list A) (i : nat) : result A :=
  match l !! i with Some a => mret a | None => raise IndexError end.

Definition setitem {A} (l : list A) (i : nat) (a : A) : result (list A) :=
  if decide (i < length l) then mret (<[i:=a]> l) else raise IndexError.

(** [heap.pop()]: the last element and the list without it. *)
Definition list_pop {A} (l : list A) : result (A * list A) :=
  match last l with
  | Some a => mret (a, take (length l - 1) l)
  | None => raise IndexError
  end.

(** ** heapq (Lib/heapq.py), on lists of nodes compared with [Node_lt] *)

Module heapq.

(** The [while pos > startpos] loop of [_siftdown]; the state is
    [(heap, pos)]. *)
Fixpoint _siftdown_loop (fuel : nat) (heap : list Node) (newitem : Node)
    (startpos pos : nat) : result (list Node * nat) :=
  if decide (startpos < pos) then
    match fuel with
    | 0 => raise OutOfFuel
    | S fuel' =>
        let parentpos := Nat.shiftr (pos - 1) 1 in
        parent ← getitem heap parentpos;
        if Node_lt newitem parent then
          heap ← setitem heap pos parent;
          _siftdown_loop fuel' heap newitem startpos parentpos
        else mret (heap, pos)
    end
  else mret (heap, pos).

Definition _siftdown (heap : list Node) (startpos pos : nat)
    : result (list Node) :=
  newitem ← getitem heap pos;
  '(heap, pos) ← _siftdown_loop pos heap newitem startpos pos;
  setitem heap pos newitem.

(** The [while childpos < endpos] loop of [_siftup]; the state is
    [(heap, pos)] and [childpos = 2*pos + 1] at the head of the loop. *)
Fixpoint _siftup_loop (fuel : nat) (heap : list Node) (endpos pos : nat)
    : result (list Node * nat) :=
  let childpos := 2 * pos + 1 in
  if decide (childpos < endpos) then
    match fuel with
    | 0 => raise OutOfFuel
    | S fuel' =>
        let rightpos := childpos + 1 in
        childpos ←
          (if decide (rightpos < endpos) then
             c ← getitem heap childpos;
             r ← getitem heap rightpos;
             mret (if negb (Node_lt c r) then rightpos else childpos)
           else mret childpos);
        child ← getitem heap childpos;
        heap ← setitem heap pos child;
        _siftup_loop fuel' heap endpos childpos
    end
  else mret (heap, pos).

Definition _siftup (heap : list Node) (pos : nat) : result (list Node) :=
  let endpos := length heap in
  let startpos := pos in
  newitem ← getitem heap pos;
  '(heap, pos) ← _siftup_loop endpos heap endpos pos;
  heap ← setitem heap pos newitem;
  _siftdown heap startpos pos.

Definition heappush (heap : list Node) (item : Node) : result (list Node) :=
  let heap := heap ++ [item] in
  _siftdown heap 0 (length heap - 1).

(** Returns the popped item and the heap after the call. *)
Definition heappop (heap : list Node) : result (Node * list Node) :=
  '(lastelt, heap) ← list_pop heap;
  match heap with
  | [] => mret (lastelt, heap)
  | _ :: _ =>
      returnitem ← getitem heap 0;
      heap ← setitem heap 0 lastelt;
      heap ← _siftup heap 0;
      mret (returnitem, heap)
  end.

(** [for i in reversed(range(n//2)): _siftup(x, i)] *)
Definition heapify (x : list Node) : result (list Node) :=
  let n := length x in
  foldM (fun x i => _siftup x i) (rev (seq 0 (n / 2))) x.

End heapq.

(** ** build_huffman_tree *)

(** The [while len(heap) > 1] loop. *)
Fixpoint merge_loop (fuel : nat) (heap : list Node) : result (list Node) :=
  if decide (1 < length heap) then
    match fuel with
    | 0 => raise OutOfFuel
    | S fuel' =>
        '(node1, heap) ← heapq.heappop heap;
        '(node2, heap) ← heapq.heappop heap;
        let merged :=
          mkNode None (freq node1 + freq node2) (Some node1) (Some node2) in
        heap ← heapq.heappush heap merged;
        merge_loop fuel' heap
    end
  else mret heap.

Definition build_huffman_tree (text : str) : result (option Node) :=
  let freq_map := Counter text in
  let heap := map (fun '(char, freq) => Node_init (Some char) freq) freq_map in
  heap ← heapq.heapify heap;
  heap ← merge_loop (length heap) heap;
  mret (head heap).

(** ** build_codes *)

(** The recursion of [build_codes] below a node that is not [None]; the
    result is the content of the [codes] object after the call. *)
Fixpoint build_codes_node (node : Node) (current_code : str)
    (codes : dict ascii str) : dict ascii str :=
  match node with
  | mkNode char _ left right =>
      let codes :=
        match char with
        | Some c => dict_set codes c current_code
        | None => codes
        end in
      let codes :=
        match left with
        | Some l => build_codes_node l (current_code ++ ["0"]) codes
        | None => codes
        end in
      match right with
      | Some r => build_codes_node r (current_code ++ ["1"]) codes
      | None => codes
      end
  end.

(** [build_codes(node, current_code, codes)]: the returned value is [None]
    for the node [None] (the bare [return]) and the mutated [codes] object
    otherwise. *)
Definition build_codes (node : option Node) (current_code : str)
    (codes : dict ascii str) : option (dict ascii str) :=
  match node with
  | None => None
  | Some n => Some (build_codes_node n current_code codes)
  end.

(** ** compress_file *)

(** [int(s, 2)] on a string of binary digits. *)
Definition digit2 (c : ascii) : result N :=
  if decide (c = "0") then mret 0%N
  else if decide (c = "1") then mret 1%N
  else raise ValueError.

Definition int2 (s : str) : result N :=
  match s with
  | [] => raise ValueError
  | _ => foldM (fun acc c => d ← digit2 c; mret (2 * acc + d)%N) s 0%N
  end.

(** [bytearray.append(n)] accepts [0 <= n < 256] only. *)
Definition bytearray_append (a : list byte) (n : N) : result (list byte) :=
  match Byte.of_N n with
  | Some b => mret (a ++ [b])
  | None => raise ValueError
  end.

(** [range(0, stop, 8)] *)
Definition range8 (stop : nat) : list nat :=
  map (fun k => 8 * k) (seq 0 ((stop + 7) / 8)).

(** [s[i:j]] *)
Definition slice {A} (s : list A) (i j : nat) : list A :=
  take (j - i) (drop i s).

(** [codes[char]] where [codes] is what [build_codes] returned. *)
Definition codes_getitem (codes : option (dict ascii str)) (c : ascii)
    : result str :=
  match codes with
  | None => raise TypeError
  | Some d => dict_getitem d c
  end.

(** The body of [for i in range(0, len(padded_encoded), 8)]. *)
Definition pack_step (padded_encoded : str) (byte_array : list byte) (i : nat)
    : result (list byte) :=
  let byte := slice padded_encoded i (i + 8) in
  n ← int2 byte;
  bytearray_append byte_array n.

(** The function has one piece of hidden state: the dict created once for
    the default argument [codes={}] of [build_codes], which every call
    [build_codes(root)] mutates.  [codes_default] is its content before the
    call; the result holds the bytes written to [output_path], the value
    dumped to [codes_path] and the content of the default dict after the
    call. *)
Definition compress_file (text : str) (codes_default : dict ascii str)
    : result (list byte * option (dict ascii str) * dict ascii str) :=
  root ← build_huffman_tree text;
  let codes := build_codes root [] codes_default in
  let codes_default := default codes_default codes in
  encoded ← mapM (codes_getitem codes) text;
  let encoded_text := concat encoded in
  let padded_encoded :=
    encoded_text ++ repeat "0" ((8 - length encoded_text mod 8) mod 8) in
  byte_array ← foldM (pack_step padded_encoded)
                     (range8 (length padded_encoded)) [];
  mret (byte_array, codes, codes_default).

(** ** decompress_file *)

(** [bin(n)[2:]] *)
Fixpoint bin_pos (p : positive) : str :=
  match p with
  | xH => ["1"]
  | xO p => bin_pos p ++ ["0"]
  | xI p => bin_pos p ++ ["1"]
  end.

Definition bin (n : N) : str :=
  match n with N0 => ["0"] | Npos p => bin_pos p end.

(** [f"{byte:08b}"] *)
Definition format_08b (n : N) : str :=
  let digits := bin n in repeat "0" (8 - length digits) ++ digits.

(** [{v: k for k, v in codes.items()}] *)
Definition reverse_dict (codes : dict ascii str) : dict str ascii :=
  fold_left (fun d '(k, v) => dict_set d v k) codes [].

(** One iteration of [for bit in bit_string]; the state is
    [(current, decoded_text)]. *)
Definition decode_step (reverse_codes : dict str ascii)
    (st : str * list ascii) (bit : ascii) : str * list ascii :=
  let '(current, decoded_text) := st in
  let current := current ++ [bit] in
  match dict_get reverse_codes current with
  | Some s => ([], decoded_text ++ [s])
  | None => (current, decoded_text)
  end.

Definition decode_loop (reverse_codes : dict str ascii) (bit_string : str)
    : str * list ascii :=
  fold_left (decode_step reverse_codes) bit_string ([], []).

(** [''.join(f"{byte:08b}" for byte in byte_data)] *)
Definition bit_string (byte_data : list byte) : str :=
  concat (map (fun b => format_08b (Byte.to_N b)) byte_data).

(** [codes] is the value loaded from the JSON file: [None] for [null]. *)
Definition decompress_file (byte_data : list byte)
    (codes : option (dict ascii str)) : result str :=
  let bit_string := bit_string byte_data in
  match codes with
  | None => raise AttributeError
  | Some codes =>
      let reverse_codes := reverse_dict codes in
      let '(current, decoded_text) := decode_loop reverse_codes bit_string in
      mret decoded_text
  end.

(** A compression followed by the decompression of what it wrote. *)
Definition roundtrip (text : str) (codes_default : dict ascii str)
    : result str :=
  '(byte_data, codes, _) ← compress_file text codes_default;
  decompress_file byte_data codes.

(** A text given as a string literal. *)
Definition lit (s : string) : str := String.list_ascii_of_string s.

(** ** Heap order on the array representation

    The predicates used to state what [heapq] guarantees.  [parent c] is the
    index [(c - 1) >> 1]; [key h i] is the frequency stored at index [i]. *)

Definition parent (c : nat) : nat := (c - 1) / 2.

Definition key (h : list Node) (i : nat) : nat := from_option freq 0 (h !! i).

(** Every node at an index [>= k] is at most its children. *)
Definition heap_from (k : nat) (h : list Node) : Prop :=
  ∀ c, 0 < c < length h → k ≤ parent c → key h (parent c) ≤ key h c.

(** The heap invariant of [heapq]: [heap[k] <= heap[2*k+1]] and
    [heap[k] <= heap[2*k+2]] for all [k]. *)
Definition heap_ok (h : list Node) : Prop := heap_from 0 h.

(** [below s p]: position [p] lies in the subtree rooted at [s]. *)
Inductive below (s : nat) : nat → Prop :=
  | below_refl : below s s
  | below_child p : 0 < p → below s (parent p) → below s p.

(** The array [h] has a hole at [p]: all pairs (parent, child) that do not
    involve [p] and whose parent is at an index [>= s] are in order. *)
Definition hole_ok (h : list Node) (s p : nat) : Prop :=
  ∀ c, 0 < c < length h → s ≤ parent c → c ≠ p → parent c ≠ p →
       key h (parent c) ≤ key h c.

(** Invariant of the loop of [_siftdown], which moves the hole up towards
    [s] to place [x]: the children of the hole are at least [x] and at least
    the parent of the hole. *)
Definition down_inv (h : list Node) (s p : nat) (x : Node) : Prop :=
  below s p ∧ hole_ok h s p ∧
  ∀ c, 0 < c < length h → parent c = p →
       freq x ≤ key h c ∧ (s < p → key h (parent p) ≤ key h c).

(** Invariant of the loop of [_siftup], which moves the hole down to a
    leaf, pulling the smaller child up: the children of the hole are at least
    the parent of the hole. *)
Definition up_inv (h : list Node) (s p : nat) : Prop :=
  below s p ∧ hole_ok h s p ∧
  (s < p → ∀ c, 0 < c < length h → parent c = p → key h (parent p) ≤ key h c).


(** ** Huffman trees

    The shape of the nodes [build_huffman_tree] builds: a node made by
    [Node(char, freq)] has a symbol and no children, a merged node has no
    symbol, two children and the sum of their frequencies. *)
Inductive huffman_tree : Node → Prop :=
  | ht_leaf c f : huffman_tree (mkNode (Some c) f None None)
  | ht_node l r :
      huffman_tree l → huffman_tree r →
      huffman_tree (mkNode None (freq l + freq r) (Some l) (Some r)).

(** The nodes that carry a symbol, in the order [build_codes] visits them,
    each with its frequency and the path ("0" = left, "1" = right) that
    leads to it from a root reached with the path [cur]. *)
Fixpoint leaves (n : Node) (cur : str) : list (ascii * nat * str) :=
  match n with
  | mkNode char freq left right =>
      match char with Some c => [(c, freq, cur)] | None => [] end ++
      match left with Some l => leaves l (cur ++ ["0"]) | None => [] end ++
      match right with Some r => leaves r (cur ++ ["1"]) | None => [] end
  end.

(** The (symbol, frequency) pairs and the (symbol, code) pairs of a tree. *)
Definition node_items (n : Node) : list (ascii * nat) :=
  map (fun '(c, f, _) => (c, f)) (leaves n []).

Definition node_paths (n : Node) (cur : str) : list (ascii * str) :=
  map (fun '(c, _, p) => (c, p)) (leaves n cur).

(** Sum over the symbols of frequency times depth. *)
Definition weighted_path_length (n : Node) : nat :=
  list_sum (map (fun '(_, f, p) => f * length p) (leaves n [])).

(** Every node has no child or two children. *)
Fixpoint strict_binary (n : Node) : bool :=
  match n with
  | mkNode _ _ left right =>
      match left, right with
      | None, None => true
      | Some l, Some r => strict_binary l && strict_binary r
      | _, _ => false
      end
  end.

(** Number of nodes without children. *)
Fixpoint num_leaves (n : Node) : nat :=
  match n with
  | mkNode _ _ left right =>
      match left, right with
      | None, None => 1
      | _, _ =>
          match left with Some l => num_leaves l | None => 0 end +
          match right with Some r => num_leaves r | None => 0 end
      end
  end.

(** Number of nodes with a child. *)
Fixpoint num_internal (n : Node) : nat :=
  match n with
  | mkNode _ _ left right =>
      match left, right with
      | None, None => 0
      | _, _ =>
          1 + match left with Some l => num_internal l | None => 0 end +
              match right with Some r => num_internal r | None => 0 end
      end
  end.

(** Every node with a child has no symbol and the sum of its children's
    frequencies as frequency; every node without children has a symbol. *)
Fixpoint sums_ok (n : Node) : bool :=
  match n with
  | mkNode char f left right =>
      match left, right with
      | None, None => bool_decide (is_Some char)
      | _, _ =>
          bool_decide (char = None) &&
          bool_decide (f = from_option freq 0 left + from_option freq 0 right) &&
          match left with Some l => sums_ok l | None => true end &&
          match right with Some r => sums_ok r | None => true end
      end
  end.

(** What [build_codes] does at one symbol-carrying node. *)
Definition set_code (d : dict ascii str) (e : ascii * nat * str)
    : dict ascii str :=
  let '(c, _, p) := e in dict_set d c p.

(** ** Prefix-code trees over symbols: the competitors of the Huffman tree

    A binary tree with the symbols at its leaves; an inner node has two
    children or one.  These are the tries of the prefix-free code tables. *)

Inductive code_tree :=
  | CLeaf (c : ascii)
  | COne (t : code_tree)
  | CNode (l r : code_tree).

(** The symbols at the leaves with their depths below a root at depth [d]. *)
Fixpoint code_depths (t : code_tree) (d : nat) : list (ascii * nat) :=
  match t with
  | CLeaf c => [(c, d)]
  | COne t => code_depths t (S d)
  | CNode l r => code_depths l (S d) ++ code_depths r (S d)
  end.

(** Sum of frequency times depth over a list of (symbol, depth). *)
Definition depths_cost (freq_map : dict ascii nat) (l : list (ascii * nat))
    : nat :=
  list_sum (map (fun '(c, d) => default 0 (dict_get freq_map c) * d) l).

(** Weighted path length of [t] for the frequencies [freq_map]. *)
Definition code_tree_cost (freq_map : dict ascii nat) (t : code_tree) : nat :=
  depths_cost freq_map (code_depths t 0).

(** [t] is a prefix-code tree for [freq_map]: its leaves are the symbols of
    [freq_map], each once. *)
Definition code_tree_for (freq_map : dict ascii nat) (t : code_tree) : Prop :=
  map fst (code_depths t 0) ≡ₚ dict_keys freq_map.

(** The tree of [Node]s seen as a prefix-code tree. *)
Fixpoint to_code_tree (n : Node) : code_tree :=
  match n with
  | mkNode char _ left right =>
      match left, right with
      | Some l, Some r => CNode (to_code_tree l) (to_code_tree r)
      | Some l, None => COne (to_code_tree l)
      | None, Some r => COne (to_code_tree r)
      | None, None => CLeaf (default "000" char)
      end
  end.

(** Sum over the symbols of frequency times code length, for a code table. *)
Definition table_cost (freq_map : dict ascii nat) (codes : dict ascii str)
    : nat :=
  list_sum (map (fun '(c, f) => f * length (default [] (dict_get codes c)))
                freq_map).

(** ** Greedy merging and depth profiles *)

(** [greedy ws c]: merging the two smallest weights of [ws] again and again,
    down to a single weight, costs [c] (each merge costs the sum of the two
    weights). *)
Inductive greedy : list nat → nat → Prop :=
  | greedy_one w : greedy [w] 0
  | greedy_step ws a b ws' c :
      ws ≡ₚ a :: b :: ws' →
      (∀ y, y ∈ b :: ws' → a ≤ y) → (∀ y, y ∈ ws' → b ≤ y) →
      greedy ((a + b) :: ws') c →
      greedy ws (c + a + b).

(** [kraft ds]: [ds] is the multiset of leaf depths of a strict binary
    tree. *)
Inductive kraft : list nat → Prop :=
  | kraft_one : kraft [0]
  | kraft_split d ds ds' :
      kraft (d :: ds) → ds' ≡ₚ S d :: S d :: ds → kraft ds'.

(** Cost of a profile, a list of (weight, depth). *)
Definition profile_cost (p : list (nat * nat)) : nat :=
  list_sum (map (fun '(w, d) => w * d) p).

(** ** Bit strings *)

Definition is_bit (c : ascii) : Prop := c = "0" ∨ c = "1".

(** The value of a bit string read most-significant-bit-first. *)
Definition bit_value (c : ascii) : N := if decide (c = "1") then 1%N else 0%N.

Fixpoint msb_first_value (bits : str) : N :=
  match bits with
  | [] => 0%N
  | b :: rest =>
      (bit_value b * 2 ^ N.of_nat (length rest) + msb_first_value rest)%N
  end.

(** The bit string cut into groups of 8, each read most-significant-bit-first. *)
Definition msb_first_bytes (bits : str) : list N :=
  map msb_first_value (reshape (replicate (length bits / 8) 8) bits).

(** The lines of [compress_file] that compute [encoded_text]. *)
Definition encoded_text (text : str) (codes_default : dict ascii str)
    : result str :=
  root ← build_huffman_tree text;
  let codes := build_codes root [] codes_default in
  encoded ← mapM (codes_getitem codes) text;
  mret (concat encoded).

(** ** Properties of code tables *)

(** The last symbol, in table order, that the table maps to the bit string
    [v]. *)
Definition last_symbol_with (codes : dict ascii str) (v : str) : option ascii :=
  last (map fst (filter (fun e => e.2 = v) codes)).

(** No code is a prefix of the code of another symbol. *)
Definition prefix_free (codes : dict ascii str) : Prop :=
  ∀ a b ca cb,
    dict_get codes a = Some ca → dict_get codes b = Some cb → a ≠ b →
    ¬ ca `prefix_of` cb.

(** What one symbol's code needs for the scan of [decompress_file] to emit
    the symbol: the reverse map sends the code to the symbol and sends no
    proper non-empty prefix of the code to anything. *)
Definition decodes_to (reverse_codes : dict str ascii) (c : ascii) (code : str)
    : Prop :=
  code ≠ [] ∧ dict_get reverse_codes code = Some c ∧
  ∀ p, p ≠ [] → p `prefix_of` code → p ≠ code → dict_get reverse_codes p = None.

(** ** Further properties of trees and texts *)

(** Number of occurrences of the symbol [c] in [text]. *)
Definition occurrences (c : ascii) (text : str) : nat :=
  length (filter (fun x => x = c) text).

(** In every node with two children the left child's frequency is at most
    the right child's. *)
Fixpoint children_ordered (n : Node) : bool :=
  match n with
  | mkNode _ _ left right =>
      match left, right with
      | Some l, Some r =>
          (freq l <=? freq r) && children_ordered l && children_ordered r
      | Some l, None => children_ordered l
      | None, Some r => children_ordered r
      | None, None => true
      end
  end.

(** * Properties *)

Import heapq.

(** ** The result monad and list primitives *)

Lemma bind_inr {A B} (a : A) (k : A → result B) : (inr a ≫= k) = k a.
Proof. reflexivity. Qed.

Lemma bind_ret {A B} (a : A) (k : A → result B) : (mret a ≫= k) = k a.
Proof. reflexivity. Qed.

Lemma shiftr1 n : Nat.shiftr n 1 = n / 2.
Proof. rewrite Nat.shiftr_div_pow2. reflexivity. Qed.

Lemma key_insert h i j x :
  i < length h → key (<[i:=x]> h) j = if decide (i = j) then freq x else key h j.
Proof.
  intros Hi. unfold key. destruct (decide (i = j)) as [->|Hne].
  - by rewrite list_lookup_insert_eq.
  - by rewrite list_lookup_insert_ne.
Qed.

Lemma getitem_lt {A} (l : list A) i :
  i < length l → ∃ a, l !! i = Some a ∧ getitem l i = inr a.
Proof.
  intros Hi. destruct (lookup_lt_is_Some_2 l i Hi) as [a Ha].
  exists a. unfold getitem. by rewrite Ha.
Qed.

Lemma getitem_Some {A} (l : list A) i a : l !! i = Some a → getitem l i = inr a.
Proof. unfold getitem. by intros ->. Qed.

Lemma setitem_lt {A} (l : list A) i a :
  i < length l → setitem l i a = inr (<[i:=a]> l).
Proof. intros Hi. unfold setitem. by rewrite decide_True. Qed.

(** Exchanging two elements of a list permutes it. *)
Lemma swap_Permutation {A} (l : list A) i j a b :
  l !! i = Some a → l !! j = Some b → <[j:=a]> (<[i:=b]> l) ≡ₚ l.
Proof.
  intros Ha Hb.
  pose proof (lookup_lt_Some _ _ _ Ha) as Hi.
  pose proof (lookup_lt_Some _ _ _ Hb) as Hj.
  apply Permutation_inj. split; [by rewrite !length_insert|].
  exists (fun k => if decide (k = i) then j else if decide (k = j) then i else k).
  split.
  - intros k1 k2. repeat case_decide; lia.
  - intros k. destruct (decide (k = j)) as [->|Hkj].
    + rewrite list_lookup_insert_eq by (rewrite length_insert; lia).
      repeat case_decide; congruence.
    + rewrite list_lookup_insert_ne by done.
      destruct (decide (k = i)) as [->|Hki].
      * rewrite list_lookup_insert_eq by lia. done.
      * by rewrite list_lookup_insert_ne.
Qed.

Lemma below_le s p : below s p → s ≤ p.
Proof. induction 1; unfold parent in *; lia. Qed.

Lemma below_parent s p : below s p → s < p → below s (parent p).
Proof. destruct 1; [lia|done]. Qed.

Lemma below_0 p : below 0 p.
Proof.
  induction (lt_wf p) as [p _ IH]. destruct (decide (p = 0)) as [->|Hp].
  - constructor.
  - apply below_child; [lia|]. apply IH. unfold parent. lia.
Qed.

Lemma key_lookup h i y : h !! i = Some y → key h i = freq y.
Proof. unfold key. by intros ->. Qed.

Lemma down_inv_step h s p x y :
  s < p → p < length h → h !! parent p = Some y → freq x < freq y →
  down_inv h s p x → down_inv (<[p:=y]> h) s (parent p) x.
Proof.
  intros Hsp Hp Hy Hlt (Hd & Ha & Hb).
  assert (Hpp : parent p < p) by (unfold parent; lia).
  pose proof (key_lookup _ _ _ Hy) as Ky.
  pose proof (below_parent _ _ Hd Hsp) as Hd'.
  pose proof (below_le _ _ Hd') as Hle'.
  split; [done|]. split.
  - intros c Hc Hs Hc1 Hc2. rewrite length_insert in Hc.
    rewrite !key_insert by done.
    destruct (decide (p = parent c)) as [Hpc|Hpc].
    + destruct (decide (p = c)) as [->|Hne]; [unfold parent in *; lia|].
      destruct (Hb c Hc (eq_sym Hpc)) as [_ Hb2].
      rewrite <- Ky. apply Hb2. done.
    + destruct (decide (p = c)) as [<-|Hne]; [done|].
      apply Ha; try done; congruence.
  - intros c Hc Hpc. rewrite length_insert in Hc.
    rewrite !key_insert by done.
    assert (Hq : parent p ≠ p) by lia.
    destruct (decide (p = parent (parent p))) as [Hx|_];
      [unfold parent in *; lia|].
    assert (Hgp : s < parent p → key h (parent (parent p)) ≤ key h (parent p)).
    { intros Hs. pose proof (below_le _ _ (below_parent _ _ Hd' Hs)).
      apply Ha; unfold parent in *; lia. }
    destruct (decide (p = c)) as [<-|Hne].
    + split; [lia|]. intros Hs. rewrite <- Ky. by apply Hgp.
    + assert (Hc' : key h (parent c) ≤ key h c).
      { apply Ha; try done; try congruence. }
      rewrite Hpc, Ky in Hc'. split; [lia|]. intros Hs.
      specialize (Hgp Hs). lia.
Qed.

Lemma _siftdown_loop_spec s x fuel : ∀ h pos,
  pos ≤ fuel → pos < length h → down_inv h s pos x →
  ∃ h' pos', _siftdown_loop fuel h x s pos = inr (h', pos') ∧
    length h' = length h ∧ pos' ≤ pos ∧
    down_inv h' s pos' x ∧
    (s < pos' → key h' (parent pos') ≤ freq x) ∧
    <[pos':=x]> h' ≡ₚ <[pos:=x]> h.
Proof.
  induction fuel as [|fuel IH]; intros h pos Hf Hp HJ; cbn [_siftdown_loop].
  - rewrite decide_False by lia. exists h, pos. split_and!; try done; lia.
  - destruct (decide (s < pos)) as [Hs|Hs].
    + rewrite shiftr1. fold (parent pos).
      assert (Hpp : parent pos < pos) by (unfold parent; lia).
      destruct (getitem_lt h (parent pos)) as (y & Hy & ->); [lia|].
      rewrite bind_inr. unfold Node_lt.
      destruct (freq x <? freq y) eqn:Hlt.
      * apply Nat.ltb_lt in Hlt.
        rewrite setitem_lt by done. rewrite bind_inr.
        assert (H1 : parent pos ≤ fuel) by lia.
        assert (H2 : parent pos < length (<[pos:=y]> h))
          by (rewrite length_insert; lia).
        assert (H3 : down_inv (<[pos:=y]> h) s (parent pos) x)
          by (by apply down_inv_step).
        destruct (IH (<[pos:=y]> h) (parent pos) H1 H2 H3) as
          (h' & pos' & -> & Hlen & Hle & HJ' & Hex & Hperm).
        exists h', pos'. rewrite length_insert in Hlen.
        split_and!; try done; try lia.
        rewrite Hperm.
        rewrite <- (list_insert_insert_eq h pos y x).
        apply swap_Permutation.
        -- by apply list_lookup_insert_eq.
        -- rewrite list_lookup_insert_ne by lia. done.
      * apply Nat.ltb_ge in Hlt. exists h, pos.
        split_and!; try done.
        intros _. rewrite (key_lookup _ _ _ Hy). done.
    + exists h, pos. split_and!; try done; lia.
Qed.

(** [_siftdown] fills a hole of a heap-ordered array and leaves a heap. *)
Lemma _siftdown_spec h s pos x :
  h !! pos = Some x → down_inv h s pos x →
  ∃ h', _siftdown h s pos = inr h' ∧ length h' = length h ∧
        h' ≡ₚ h ∧ heap_from s h'.
Proof.
  intros Hx HJ. pose proof (lookup_lt_Some _ _ _ Hx) as Hp.
  unfold _siftdown. rewrite (getitem_Some _ _ _ Hx), bind_inr.
  destruct (_siftdown_loop_spec s x pos h pos) as
    (h' & pos' & -> & Hlen & Hle & (Hd & Ha & Hb) & Hex & Hperm); try done.
  rewrite bind_inr. rewrite setitem_lt by lia.
  exists (<[pos':=x]> h'). rewrite length_insert.
  split; [done|]. split; [done|]. split.
  { rewrite Hperm. by rewrite list_insert_id. }
  intros c Hc Hk. rewrite length_insert in Hc.
  rewrite !key_insert by lia.
  destruct (decide (pos' = parent c)) as [Hpc|Hpc].
  - destruct (decide (pos' = c)) as [->|Hne]; [unfold parent in *; lia|].
    by apply Hb.
  - destruct (decide (pos' = c)) as [<-|Hne].
    + apply Hex. pose proof (below_le _ _ Hd). unfold parent in *; lia.
    + apply Ha; try done; congruence.
Qed.

Lemma up_inv_step h s p ch y :
  ch < length h → 0 < ch → parent ch = p → h !! ch = Some y →
  (∀ c, 0 < c < length h → parent c = p → freq y ≤ key h c) →
  up_inv h s p → up_inv (<[p:=y]> h) s ch.
Proof.
  intros Hch Hch0 Hpch Hy Hmin (Hd & Ha & Hb).
  pose proof (below_le _ _ Hd) as Hsp.
  pose proof (key_lookup _ _ _ Hy) as Ky.
  assert (Hp : p < ch) by (unfold parent in *; lia).
  split; [|split].
  - apply below_child; [done|]. by rewrite Hpch.
  - intros c Hc Hs Hc1 Hc2. rewrite length_insert in Hc.
    rewrite !key_insert by lia.
    destruct (decide (p = parent c)) as [Hpc|Hpc].
    + destruct (decide (p = c)) as [->|Hne]; [unfold parent in *; lia|].
      by apply Hmin.
    + destruct (decide (p = c)) as [<-|Hne].
      * rewrite <- Ky. apply Hb; [unfold parent in *; lia|lia|done].
      * apply Ha; try done; congruence.
  - intros _ c Hc Hpc. rewrite length_insert in Hc.
    rewrite !key_insert by lia. rewrite Hpch.
    rewrite decide_True by done.
    rewrite decide_False by (unfold parent in *; lia).
    rewrite <- Ky, <- Hpc. apply Ha; unfold parent in *; lia.
Qed.

Lemma _siftup_loop_spec s fuel : ∀ h pos,
  length h ≤ fuel + pos → pos < length h → up_inv h s pos →
  ∃ h' pos', _siftup_loop fuel h (length h) pos = inr (h', pos') ∧
    length h' = length h ∧ pos' < length h ∧ length h ≤ 2 * pos' + 1 ∧
    up_inv h' s pos' ∧ ∀ x, <[pos':=x]> h' ≡ₚ <[pos:=x]> h.
Proof.
  induction fuel as [|fuel IH]; intros h pos Hf Hp HK; cbn [_siftup_loop].
  - rewrite decide_False by lia. exists h, pos. split_and!; try done; lia.
  - destruct (decide (2 * pos + 1 < length h)) as [Hc|Hc];
      [|exists h, pos; split_and!; try done; lia].
    assert (∃ ch y, (ch = 2 * pos + 1 ∨ ch = 2 * pos + 2) ∧ ch < length h ∧
              h !! ch = Some y ∧
              (∀ c, 0 < c < length h → parent c = pos → freq y ≤ key h c) ∧
              (if decide (2 * pos + 1 + 1 < length h)
               then c ← getitem h (2 * pos + 1);
                    r ← getitem h (2 * pos + 1 + 1);
                    mret (if negb (Node_lt c r) then 2 * pos + 1 + 1
                          else 2 * pos + 1)
               else mret (2 * pos + 1)) = inr ch) as
      (ch & y & Hch & Hchlt & Hy & Hmin & ->).
    { destruct (decide (2 * pos + 1 + 1 < length h)) as [Hr|Hr].
      - destruct (getitem_lt h (2 * pos + 1)) as (c & Hc1 & ->); [done|].
        destruct (getitem_lt h (2 * pos + 1 + 1)) as (r & Hr1 & ->); [done|].
        rewrite !bind_inr. unfold Node_lt.
        destruct (freq c <? freq r) eqn:Hlt; cbn [negb].
        + apply Nat.ltb_lt in Hlt. exists (2 * pos + 1), c.
          split_and!; try done; [lia|].
          intros k Hk Hpk.
          assert (k = 2 * pos + 1 ∨ k = 2 * pos + 1 + 1) as [->| ->]
            by (unfold parent in *; lia).
          * by rewrite (key_lookup _ _ _ Hc1).
          * rewrite (key_lookup _ _ _ Hr1). lia.
        + apply Nat.ltb_ge in Hlt. exists (2 * pos + 1 + 1), r.
          split_and!; try done; [lia|].
          intros k Hk Hpk.
          assert (k = 2 * pos + 1 ∨ k = 2 * pos + 1 + 1) as [->| ->]
            by (unfold parent in *; lia).
          * by rewrite (key_lookup _ _ _ Hc1).
          * by rewrite (key_lookup _ _ _ Hr1).
      - destruct (getitem_lt h (2 * pos + 1)) as (c & Hc1 & _); [done|].
        exists (2 * pos + 1), c. split_and!; try done; [lia|].
        intros k Hk Hpk.
        assert (k = 2 * pos + 1) as -> by (unfold parent in *; lia).
        by rewrite (key_lookup _ _ _ Hc1). }
    rewrite bind_inr, (getitem_Some _ _ _ Hy), bind_inr.
    rewrite setitem_lt by done. rewrite bind_inr.
    assert (Hpch : parent ch = pos) by (unfold parent; lia).
    assert (H1 : length (<[pos:=y]> h) ≤ fuel + ch)
      by (rewrite length_insert; lia).
    assert (H2 : ch < length (<[pos:=y]> h)) by (rewrite length_insert; lia).
    assert (H3 : up_inv (<[pos:=y]> h) s ch)
      by (apply up_inv_step; try done; lia).
    destruct (IH (<[pos:=y]> h) ch H1 H2 H3) as
      (h' & pos' & Heq & Hlen & Hlt' & Hleaf & HK' & Hperm).
    rewrite length_insert in Heq, Hlen, Hlt', Hleaf.
    exists h', pos'. split_and!; try done.
    intros x. rewrite Hperm.
    rewrite <- (list_insert_insert_eq h pos y x).
    apply swap_Permutation.
    + by apply list_lookup_insert_eq.
    + rewrite list_lookup_insert_ne by lia. done.
Qed.

(** [_siftup heap pos] makes the subtree at [pos] a heap when the subtrees
    of its children are heaps. *)
Lemma _siftup_spec h pos :
  pos < length h → heap_from (pos + 1) h →
  ∃ h', _siftup h pos = inr h' ∧ length h' = length h ∧
        h' ≡ₚ h ∧ heap_from pos h'.
Proof.
  intros Hp Hh. unfold _siftup.
  destruct (getitem_lt h pos) as (x & Hx & ->); [done|]. rewrite bind_inr.
  destruct (_siftup_loop_spec pos (length h) h pos) as
    (h1 & pos1 & -> & Hlen & Hlt & Hleaf & (Hd & Ha & Hb) & Hperm).
  { lia. } { done. }
  { split; [constructor|]. split; [|lia].
    intros c Hc Hs Hc1 Hc2. apply Hh; [done|lia]. }
  rewrite bind_inr, setitem_lt by lia. rewrite bind_inr.
  destruct (_siftdown_spec (<[pos1:=x]> h1) pos pos1 x) as
    (h' & -> & Hlen' & Hperm' & Hheap).
  { apply list_lookup_insert_eq. lia. }
  { split; [done|]. split.
    - intros c Hc Hs Hc1 Hc2. rewrite length_insert in Hc.
      rewrite !key_insert by lia.
      rewrite !decide_False by congruence. by apply Ha.
    - intros c Hc Hpc. rewrite length_insert in Hc.
      unfold parent in *; lia. }
  rewrite length_insert in Hlen'.
  exists h'. split_and!; try done; [lia|].
  rewrite Hperm', Hperm. by rewrite list_insert_id.
Qed.

(** The root of a heap is a minimum. *)
Lemma heap_ok_root_min h i : heap_ok h → i < length h → key h 0 ≤ key h i.
Proof.
  intros Hh. induction (lt_wf i) as [i _ IH]. intros Hi.
  destruct (decide (i = 0)) as [->|Hi0]; [done|].
  assert (parent i < i) by (unfold parent; lia).
  etrans; [apply (IH (parent i)); lia|]. apply Hh; lia.
Qed.

(** [heappush], [heappop] and [heapify] never raise on the heaps of the
    codec, permute their elements and keep the heap invariant; [heappop]
    returns an element of minimum frequency. *)
Lemma heappush_spec h item :
  heap_ok h →
  ∃ h', heappush h item = inr h' ∧ h' ≡ₚ item :: h ∧ heap_ok h'.
Proof.
  intros Hh. unfold heappush.
  destruct (_siftdown_spec (h ++ [item]) 0 (length (h ++ [item]) - 1) item) as
    (h' & -> & Hlen & Hperm & Hheap).
  { rewrite length_app. simpl. replace (length h + 1 - 1) with (length h) by lia.
    by rewrite lookup_app_r, Nat.sub_diag. }
  { rewrite length_app. simpl. replace (length h + 1 - 1) with (length h) by lia.
    split; [apply below_0|]. split.
    - intros c Hc Hs Hc1 Hc2. rewrite length_app in Hc. simpl in Hc.
      unfold key. rewrite !lookup_app_l by (unfold parent; lia).
      apply Hh; lia.
    - intros c Hc Hpc. rewrite length_app in Hc. simpl in Hc.
      unfold parent in *; lia. }
  exists h'. split_and!; try done.
  rewrite Hperm. by rewrite Permutation_app_comm.
Qed.

Lemma heappop_spec h :
  h ≠ [] → heap_ok h →
  ∃ x h', heappop h = inr (x, h') ∧ h ≡ₚ x :: h' ∧ heap_ok h' ∧
          ∀ y, y ∈ h → freq x ≤ freq y.
Proof.
  intros Hne Hh.
  assert (Hmin : ∀ x, h !! 0 = Some x → ∀ y, y ∈ h → freq x ≤ freq y).
  { intros x Hx y Hy. apply list_elem_of_lookup in Hy as [i Hi].
    rewrite <- (key_lookup _ _ _ Hx), <- (key_lookup _ _ _ Hi).
    apply heap_ok_root_min; [done|]. by eapply lookup_lt_Some. }
  destruct h as [|a h1 _] using rev_ind; [done|].
  unfold heappop, list_pop. rewrite last_snoc.
  rewrite length_app. simpl. replace (length h1 + 1 - 1) with (length h1) by lia.
  rewrite take_app_length.
  destruct h1 as [|r t].
  - exists a, []. split_and!; try done.
    + intros c Hc. simpl in Hc. lia.
    + by apply Hmin.
  - cbn [getitem lookup list_lookup]. rewrite bind_ret.
    rewrite setitem_lt by (simpl; lia). rewrite bind_inr.
    cbn [insert list_insert].
    destruct (_siftup_spec (a :: t) 0) as (h' & -> & Hlen & Hperm & Hheap).
    { simpl; lia. }
    { intros c Hc Hk. simpl in Hc.
      assert (Hc' : 0 < c < length ((r :: t) ++ [a]))
        by (rewrite length_app; simpl; lia).
      specialize (Hh c Hc' ltac:(lia)).
      unfold key in *.
      destruct c as [|c]; [lia|].
      assert (parent (S c) < S c) by (unfold parent; lia).
      destruct (parent (S c)) as [|q] eqn:Hq; [lia|].
      rewrite (lookup_app_l (r :: t)) in Hh by (simpl; lia).
      rewrite (lookup_app_l (r :: t)) in Hh by (simpl; lia).
      done. }
    rewrite bind_inr. exists r, h'. split_and!; try done.
    + rewrite Hperm. simpl. f_equiv. symmetry. apply Permutation_cons_append.
    + by apply Hmin.
Qed.

Lemma heapify_loop_spec k : ∀ h,
  heap_from k h → k ≤ length h →
  ∃ h', foldM (fun x i => _siftup x i) (rev (seq 0 k)) h = inr h' ∧
        length h' = length h ∧ h' ≡ₚ h ∧ heap_ok h'.
Proof.
  induction k as [|k IH]; intros h Hh Hk.
  - exists h. by split_and!.
  - rewrite seq_S, rev_app_distr. cbn [rev app foldM Nat.add].
    destruct (_siftup_spec h k) as (h1 & -> & Hlen & Hperm & Hheap).
    { lia. } { by replace (k + 1) with (S k) by lia. }
    rewrite bind_inr.
    destruct (IH h1 Hheap) as (h' & -> & Hlen' & Hperm' & Hheap'); [lia|].
    exists h'. split_and!; try done; [lia|]. by rewrite Hperm'.
Qed.

Lemma heapify_spec h :
  ∃ h', heapify h = inr h' ∧ h' ≡ₚ h ∧ heap_ok h'.
Proof.
  unfold heapify.
  destruct (heapify_loop_spec (length h / 2) h) as (h' & -> & _ & Hp & Hh).
  - intros c Hc Hk. unfold parent in *. lia.
  - lia.
  - by exists h'.
Qed.

Lemma concat_Permutation {A} (l l' : list (list A)) :
  l ≡ₚ l' → concat l ≡ₚ concat l'.
Proof.
  induction 1 as [|x l l' _ IH|x y l|l1 l2 l3 _ IH1 _ IH2]; simpl.
  - done.
  - by rewrite IH.
  - rewrite !app_assoc. f_equiv. apply Permutation_app_comm.
  - by rewrite IH1.
Qed.

#[global] Instance concat_Permutation_proper {A} :
  Proper (Permutation ==> Permutation) (@concat A).
Proof. intros l l'. apply concat_Permutation. Qed.

(** ** Huffman trees *)

Lemma leaves_cur n :
  huffman_tree n →
  ∀ cur, leaves n cur = map (fun '(c, f, p) => (c, f, cur ++ p)) (leaves n []).
Proof.
  induction 1 as [c f|l r Hl IHl Hr IHr]; intros cur; cbn [leaves].
  - simpl. by rewrite app_nil_r.
  - cbn [app]. rewrite (IHl (cur ++ ["0"])), (IHr (cur ++ ["1"])).
    rewrite (IHl ["0"]), (IHr ["1"]).
    rewrite map_app, !map_map. f_equal.
    + apply map_ext. intros [[c f] p]. by rewrite <- app_assoc.
    + apply map_ext. intros [[c f] p]. by rewrite <- app_assoc.
Qed.

Lemma node_items_node f l r :
  huffman_tree l → huffman_tree r →
  node_items (mkNode None f (Some l) (Some r)) = node_items l ++ node_items r.
Proof.
  intros Hl Hr. unfold node_items. cbn [leaves app].
  rewrite (leaves_cur l Hl ["0"]), (leaves_cur r Hr ["1"]).
  rewrite map_app, !map_map. f_equal; apply map_ext; by intros [[??]?].
Qed.

Lemma huffman_tree_freq n :
  huffman_tree n → freq n = list_sum (map snd (node_items n)).
Proof.
  induction 1 as [c f|l r Hl IHl Hr IHr].
  - simpl. lia.
  - rewrite node_items_node by done. rewrite map_app, list_sum_app.
    simpl. lia.
Qed.

Lemma list_sum_map_add {A} (f g : A → nat) l :
  list_sum (map (fun x => f x + g x) l) = list_sum (map f l) + list_sum (map g l).
Proof. induction l as [|x l IH]; simpl; lia. Qed.

Lemma weighted_path_length_node f l r :
  huffman_tree l → huffman_tree r →
  weighted_path_length (mkNode None f (Some l) (Some r)) =
  weighted_path_length l + freq l + (weighted_path_length r + freq r).
Proof.
  intros Hl Hr. unfold weighted_path_length. cbn [leaves app].
  rewrite (leaves_cur l Hl ["0"]), (leaves_cur r Hr ["1"]).
  rewrite map_app, list_sum_app, !map_map.
  rewrite (huffman_tree_freq l Hl), (huffman_tree_freq r Hr).
  unfold node_items. rewrite !map_map.
  rewrite <- !list_sum_map_add. f_equal; f_equal.
  - apply map_ext. intros [[c g] p]. simpl. lia.
  - apply map_ext. intros [[c g] p]. simpl. lia.
Qed.

Lemma huffman_tree_shape n :
  huffman_tree n →
  strict_binary n = true ∧ sums_ok n = true ∧
  num_leaves n = length (node_items n) ∧ num_leaves n = S (num_internal n).
Proof.
  induction 1 as [c f|l r Hl (Hl1 & Hl2 & Hl3 & Hl4) Hr (Hr1 & Hr2 & Hr3 & Hr4)].
  - done.
  - rewrite node_items_node by done. rewrite length_app.
    cbn [strict_binary sums_ok num_leaves num_internal from_option].
    rewrite Hl1, Hl2, Hr1, Hr2. rewrite !bool_decide_eq_true_2 by done.
    split_and!; try done; lia.
Qed.

(** ** Greedy merging *)

Lemma greedy_perm ws ws' c : ws ≡ₚ ws' → greedy ws c → greedy ws' c.
Proof.
  intros Hp Hg. inversion Hg as [w|ws0 a b ws1 c0 H1 H2 H3 H4]; subst.
  - apply Permutation_singleton_l in Hp. subst. constructor.
  - eapply greedy_step; try done. by rewrite <- Hp.
Qed.

(** ** The merge loop of build_huffman_tree *)

Lemma merge_loop_spec fuel : ∀ heap,
  length heap ≤ S fuel → heap ≠ [] → heap_ok heap → Forall huffman_tree heap →
  ∃ root c,
    merge_loop fuel heap = inr [root] ∧ huffman_tree root ∧
    node_items root ≡ₚ concat (map node_items heap) ∧
    greedy (map freq heap) c ∧
    weighted_path_length root =
      c + list_sum (map weighted_path_length heap).
Proof.
  induction fuel as [|fuel IH]; intros heap Hlen Hne Hok Hts;
    cbn [merge_loop].
  - rewrite decide_False by lia.
    destruct heap as [|root [|??]]; [done| |simpl in Hlen; lia].
    exists root, 0. apply Forall_inv in Hts.
    split_and!; try done; cbn [map concat list_sum].
    + by rewrite app_nil_r.
    + constructor.
  - destruct (decide (1 < length heap)) as [Hl|Hl].
    + destruct (heappop_spec heap Hne Hok) as (x & h1 & -> & Hp1 & Hok1 & Hmin1).
      rewrite bind_inr.
      assert (Hne1 : h1 ≠ []).
      { intros ->. apply Permutation_length in Hp1. simpl in Hp1. lia. }
      destruct (heappop_spec h1 Hne1 Hok1) as (y & h2 & -> & Hp2 & Hok2 & Hmin2).
      rewrite bind_inr.
      destruct (heappush_spec h2
                  (mkNode None (freq x + freq y) (Some x) (Some y)) Hok2)
        as (h3 & -> & Hp3 & Hok3).
      rewrite bind_inr.
      assert (Hts' : Forall huffman_tree (x :: y :: h2))
        by (by rewrite <- Hp2, <- Hp1).
      apply Forall_cons in Hts' as [Hx Hts']. apply Forall_cons in Hts' as [Hy Hts2].
      destruct (IH h3) as (root & c & -> & Hroot & Hitems & Hg & Hcost).
      { apply Permutation_length in Hp1, Hp2, Hp3. simpl in *. lia. }
      { intros ->. apply Permutation_length in Hp3. simpl in Hp3. lia. }
      { done. }
      { rewrite Hp3. apply Forall_cons. split; [by constructor|done]. }
      exists root, (c + freq x + freq y). split_and!; try done.
      * rewrite Hitems, Hp3, Hp1, Hp2. cbn [map concat].
        rewrite node_items_node by done. by rewrite <- app_assoc.
      * eapply greedy_step with (ws' := map freq h2).
        -- by rewrite Hp1, Hp2.
        -- intros w Hw. change (w ∈ map freq (y :: h2)) in Hw.
           apply list_elem_of_fmap in Hw as (n & -> & Hn).
           apply Hmin1. rewrite Hp1, Hp2. by right.
        -- intros w Hw. apply list_elem_of_fmap in Hw as (n & -> & Hn).
           apply Hmin2. rewrite Hp2. by right.
        -- eapply greedy_perm; [|exact Hg]. by rewrite Hp3.
      * rewrite Hcost, Hp3, Hp1, Hp2. cbn [map list_sum].
        rewrite weighted_path_length_node by done. simpl. lia.
    + destruct heap as [|root [|??]]; [done| |simpl in Hl; lia].
      exists root, 0. apply Forall_inv in Hts.
      split_and!; try done; cbn [map concat list_sum].
      * by rewrite app_nil_r.
      * constructor.
Qed.

(** ** dict *)

Section DictLemmas.
Context {K V : Type} `{EqDecision K}.
Implicit Types (d : dict K V) (k : K) (v : V).

Lemma dict_get_set_eq d k v : dict_get (dict_set d k v) k = Some v.
Proof.
  induction d as [|[k' v'] d IH]; simpl.
  - by rewrite decide_True.
  - destruct (decide (k' = k)) as [->|Hne]; simpl.
    + by rewrite decide_True.
    + by rewrite decide_False.
Qed.

Lemma dict_get_set_ne d k k' v :
  k ≠ k' → dict_get (dict_set d k v) k' = dict_get d k'.
Proof.
  intros Hne. induction d as [|[k1 v1] d IH]; simpl.
  - by rewrite decide_False.
  - destruct (decide (k1 = k)) as [->|Hne1]; simpl.
    + by rewrite !decide_False.
    + by rewrite IH.
Qed.

Lemma dict_get_None d k : dict_get d k = None ↔ k ∉ dict_keys d.
Proof.
  induction d as [|[k' v'] d IH]; simpl.
  - split; [intros _; apply not_elem_of_nil|done].
  - rewrite not_elem_of_cons. destruct (decide (k' = k)) as [->|Hne].
    + split; [done|]. by intros [? _].
    + rewrite IH. split; [intros; split; [congruence|done]|by intros [_ ?]].
Qed.

Lemma dict_get_Some_elem d k v : dict_get d k = Some v → (k, v) ∈ d.
Proof.
  induction d as [|[k' v'] d IH]; simpl; [done|].
  destruct (decide (k' = k)) as [->|Hne].
  - intros [= ->]. by left.
  - intros Hg. right. by apply IH.
Qed.

Lemma dict_get_elem d k v :
  NoDup (dict_keys d) → (k, v) ∈ d → dict_get d k = Some v.
Proof.
  induction d as [|[k' v'] d IH]; simpl; intros Hnd Hin.
  - by apply elem_of_nil in Hin.
  - apply NoDup_cons in Hnd as [Hk' Hnd].
    apply elem_of_cons in Hin as [[= <- <-]|Hin].
    + by rewrite decide_True.
    + rewrite decide_False; [by apply IH|].
      intros ->. apply Hk'. apply list_elem_of_fmap. by exists (k, v).
Qed.

Lemma dict_keys_set d k v :
  dict_keys (dict_set d k v) =
  if decide (k ∈ dict_keys d) then dict_keys d else dict_keys d ++ [k].
Proof.
  unfold dict_keys.
  induction d as [|[k' v'] d IH]; cbn [dict_set map fst].
  - case_decide as H; [by apply elem_of_nil in H|done].
  - destruct (decide (k' = k)) as [->|Hne]; cbn [map fst].
    + rewrite decide_True; [done|]. by left.
    + rewrite IH. destruct (decide (k ∈ map fst d)) as [Hin|Hin].
      * rewrite decide_True; [done|]. by right.
      * rewrite decide_False; [done|].
        rewrite not_elem_of_cons. split; [congruence|done].
Qed.

Lemma dict_set_fresh d k v : k ∉ dict_keys d → dict_set d k v = d ++ [(k, v)].
Proof.
  induction d as [|[k' v'] d IH]; simpl; [done|].
  rewrite not_elem_of_cons. intros [Hne Hin].
  rewrite decide_False by congruence. by rewrite IH.
Qed.

Lemma dict_keys_set_elem d k v k' :
  k' ∈ dict_keys (dict_set d k v) ↔ k' = k ∨ k' ∈ dict_keys d.
Proof.
  rewrite dict_keys_set. case_decide.
  - split; [by right|]. by intros [->|?].
  - rewrite elem_of_app, list_elem_of_singleton. tauto.
Qed.

Lemma dict_keys_set_NoDup d k v :
  NoDup (dict_keys d) → NoDup (dict_keys (dict_set d k v)).
Proof.
  intros Hnd. rewrite dict_keys_set. case_decide; [done|].
  apply NoDup_app. split_and!; [done| |apply NoDup_singleton].
  intros x Hx Hx'. apply list_elem_of_singleton in Hx' as ->. done.
Qed.

Lemma dict_set_length d k v : length d ≤ length (dict_set d k v).
Proof.
  induction d as [|[k' v'] d IH]; simpl; [lia|].
  case_decide; simpl; lia.
Qed.
End DictLemmas.

(** ** Counter *)

Lemma Counter_fold_keys text : ∀ m c,
  c ∈ dict_keys (fold_left count_step text m) ↔ c ∈ dict_keys m ∨ c ∈ text.
Proof.
  induction text as [|a text IH]; intros m c; simpl.
  - rewrite elem_of_nil. tauto.
  - rewrite IH. unfold count_step. rewrite dict_keys_set_elem, elem_of_cons. tauto.
Qed.

Lemma Counter_fold_NoDup text : ∀ m,
  NoDup (dict_keys m) → NoDup (dict_keys (fold_left count_step text m)).
Proof.
  induction text as [|a text IH]; intros m Hm; simpl; [done|].
  apply IH. by apply dict_keys_set_NoDup.
Qed.

Lemma Counter_keys text c : c ∈ dict_keys (Counter text) ↔ c ∈ text.
Proof.
  unfold Counter.
  rewrite Counter_fold_keys. simpl. rewrite elem_of_nil. tauto.
Qed.

Lemma Counter_NoDup text : NoDup (dict_keys (Counter text)).
Proof. apply (Counter_fold_NoDup text []). constructor. Qed.

Lemma Counter_nil text : Counter text = [] ↔ text = [].
Proof.
  split; [|by intros ->].
  destruct text as [|a text]; [done|]. intros Hc.
  assert (Ha : a ∈ dict_keys (Counter (a :: text))) by (apply Counter_keys; by left).
  rewrite Hc in Ha. by apply elem_of_nil in Ha.
Qed.

(** ** build_huffman_tree *)

Lemma build_huffman_tree_nil : build_huffman_tree [] = inr None.
Proof. reflexivity. Qed.

Lemma initial_heap_spec (freq_map : dict ascii nat) :
  let heap := map (fun '(char, freq) => Node_init (Some char) freq) freq_map in
  Forall huffman_tree heap ∧ concat (map node_items heap) = freq_map ∧
  map freq heap = map snd freq_map ∧
  list_sum (map weighted_path_length heap) = 0.
Proof.
  induction freq_map as [|[c f] m (IH1 & IH2 & IH3 & IH4)]; simpl.
  - by split_and!.
  - split_and!.
    + constructor; [constructor|done].
    + unfold node_items at 1. simpl. by f_equal.
    + by f_equal.
    + unfold weighted_path_length at 1. simpl. lia.
Qed.

Lemma build_huffman_tree_spec text :
  text ≠ [] →
  ∃ root c,
    build_huffman_tree text = inr (Some root) ∧ huffman_tree root ∧
    node_items root ≡ₚ Counter text ∧
    greedy (map snd (Counter text)) c ∧ weighted_path_length root = c.
Proof.
  intros Hne. unfold build_huffman_tree.
  destruct (initial_heap_spec (Counter text)) as (Hts & Hitems & Hfreq & Hcost).
  set (heap0 := map _ (Counter text)) in *.
  destruct (heapify_spec heap0) as (h & -> & Hp & Hok). rewrite bind_inr.
  assert (Hh : h ≠ []).
  { intros ->. apply Permutation_nil_l in Hp. symmetry in Hp.
    apply map_eq_nil in Hp. by apply Counter_nil in Hp. }
  destruct (merge_loop_spec (length h) h) as (root & c & -> & Hr & Hi & Hg & Hc);
    [lia|done|done|by rewrite Hp|].
  rewrite bind_inr. exists root, c. split_and!; try done.
  - by rewrite Hi, Hp, Hitems.
  - eapply greedy_perm; [|exact Hg]. by rewrite Hp, Hfreq.
  - rewrite Hc, Hp, Hcost. lia.
Qed.

Lemma build_huffman_tree_total text :
  ∃ root, build_huffman_tree text = inr root ∧ (root = None ↔ text = []).
Proof.
  destruct text as [|a text].
  - exists None. by rewrite build_huffman_tree_nil.
  - destruct (build_huffman_tree_spec (a :: text)) as (root & c & -> & _); [done|].
    exists (Some root). split; [done|]. split; done.
Qed.

(** ** build_codes *)

Lemma build_codes_node_spec n :
  huffman_tree n →
  ∀ cur codes,
    build_codes_node n cur codes = fold_left set_code (leaves n cur) codes.
Proof.
  induction 1 as [c f|l r Hl IHl Hr IHr]; intros cur codes.
  - reflexivity.
  - cbn [build_codes_node leaves app]. rewrite IHl, IHr.
    by rewrite fold_left_app.
Qed.

Lemma fold_set_code_fresh l : ∀ d,
  NoDup (dict_keys d ++ map (fun e => e.1.1) l) →
  fold_left set_code l d = d ++ map (fun '(c, _, p) => (c, p)) l.
Proof.
  induction l as [|[[c f] p] l IH]; intros d Hnd; simpl.
  - by rewrite app_nil_r.
  - simpl in Hnd. rewrite dict_set_fresh.
    + rewrite IH.
      * by rewrite <- app_assoc.
      * unfold dict_keys. rewrite map_app. simpl.
        rewrite <- app_assoc. done.
    + apply NoDup_app in Hnd as (_ & Hd & _). intros Hin.
      apply (Hd c Hin). by left.
Qed.

Lemma fold_set_code_get_other l : ∀ d c,
  c ∉ map (fun e => e.1.1) l →
  dict_get (fold_left set_code l d) c = dict_get d c.
Proof.
  induction l as [|[[c3 f3] p3] l IH]; intros d c Hc; simpl; [done|].
  simpl in Hc. apply not_elem_of_cons in Hc as [Hne Hc].
  rewrite IH by done. by apply dict_get_set_ne.
Qed.

Lemma fold_set_code_get l : ∀ d c f p,
  NoDup (map (fun e => e.1.1) l) → (c, f, p) ∈ l →
  dict_get (fold_left set_code l d) c = Some p.
Proof.
  induction l as [|[[c' f'] p'] l IH]; intros d c f p Hnd Hin; simpl.
  - by apply elem_of_nil in Hin.
  - simpl in Hnd. apply NoDup_cons in Hnd as [Hc' Hnd].
    apply elem_of_cons in Hin as [[= <- <- <-]|Hin].
    + rewrite fold_set_code_get_other by done. apply dict_get_set_eq.
    + by eapply IH.
Qed.

(** ** Bits and bytes *)

Lemma format_08b_length b : length (format_08b (Byte.to_N b)) = 8.
Proof. destruct b; reflexivity. Qed.

Lemma format_08b_value b : msb_first_value (format_08b (Byte.to_N b)) = Byte.to_N b.
Proof. destruct b; reflexivity. Qed.

Lemma pack_chunk chunk acc :
  length chunk = 8 → Forall is_bit chunk →
  ∃ b, (n ← int2 chunk; bytearray_append acc n) = inr (acc ++ [b]) ∧
       format_08b (Byte.to_N b) = chunk.
Proof.
  intros Hlen Hbits.
  do 8 (destruct chunk as [|? chunk]; [done|]).
  destruct chunk; [|done]. clear Hlen.
  repeat match goal with
         | H : Forall _ (_ :: _) |- _ => apply Forall_cons in H as [[-> | ->] H]
         end; eexists; split; reflexivity.
Qed.

Lemma pack_step_spec s acc j :
  Forall is_bit s → 8 * j + 8 ≤ length s →
  ∃ b, pack_step s acc (8 * j) = inr (acc ++ [b]) ∧
       format_08b (Byte.to_N b) = take 8 (drop (8 * j) s).
Proof.
  intros Hbits Hlen. unfold pack_step, slice.
  replace (8 * j + 8 - 8 * j) with 8 by lia.
  apply pack_chunk.
  - rewrite length_take, length_drop. lia.
  - apply Forall_take, Forall_drop, Hbits.
Qed.

Lemma pack_loop_spec s k : ∀ j acc,
  Forall is_bit s → length s = 8 * (j + k) →
  ∃ bs, foldM (pack_step s) (map (fun k => 8 * k) (seq j k)) acc
          = inr (acc ++ bs) ∧
        bit_string bs = drop (8 * j) s ∧ length bs = k.
Proof.
  induction k as [|k IH]; intros j acc Hbits Hlen.
  - exists []. rewrite app_nil_r. split_and!; try done.
    rewrite drop_ge by lia. done.
  - cbn [seq map foldM].
    destruct (pack_step_spec s acc j Hbits) as (b & -> & Hb); [lia|].
    rewrite bind_inr.
    destruct (IH (S j) (acc ++ [b]) Hbits) as (bs & -> & Hbs & Hl); [lia|].
    exists (b :: bs). rewrite <- app_assoc. split_and!; try done.
    + unfold bit_string in *. cbn [map concat]. rewrite Hb, Hbs.
      replace (8 * S j) with (8 * j + 8) by lia.
      rewrite <- drop_drop. apply take_drop.
    + simpl. lia.
Qed.

Lemma pack_spec s :
  Forall is_bit s → length s mod 8 = 0 →
  ∃ bs, foldM (pack_step s) (range8 (length s)) [] = inr bs ∧
        bit_string bs = s ∧ length bs = length s / 8.
Proof.
  intros Hbits Hlen. unfold range8.
  replace ((length s + 7) / 8) with (length s / 8) by lia.
  destruct (pack_loop_spec s (length s / 8) 0 [] Hbits) as (bs & Hf & Hb & Hl);
    [lia|].
  exists bs. by split_and!.
Qed.

(** ** The codes of a Huffman tree *)

Lemma leaves_node f l r :
  huffman_tree l → huffman_tree r →
  leaves (mkNode None f (Some l) (Some r)) [] =
  map (fun '(c, g, p) => (c, g, "0" :: p)) (leaves l []) ++
  map (fun '(c, g, p) => (c, g, "1" :: p)) (leaves r []).
Proof.
  intros Hl Hr. cbn [leaves app].
  by rewrite (leaves_cur l Hl ["0"]), (leaves_cur r Hr ["1"]).
Qed.

Lemma huffman_tree_internal n :
  huffman_tree n → 2 ≤ length (node_items n) →
  ∃ l r, n = mkNode None (freq l + freq r) (Some l) (Some r) ∧
         huffman_tree l ∧ huffman_tree r.
Proof.
  destruct 1 as [c f|l r Hl Hr]; intros Hlen.
  - simpl in Hlen. lia.
  - by exists l, r.
Qed.

Lemma leaves_prefix_free n :
  huffman_tree n →
  ∀ e1 e2, e1 ∈ leaves n [] → e2 ∈ leaves n [] → e1.1.1 ≠ e2.1.1 →
           ¬ e1.2 `prefix_of` e2.2.
Proof.
  induction 1 as [c f|l r Hl IHl Hr IHr]; intros e1 e2 H1 H2 Hne.
  - simpl in H1, H2. apply list_elem_of_singleton in H1, H2. by subst.
  - rewrite leaves_node in H1, H2 by done.
    apply elem_of_app in H1, H2.
    destruct H1 as [H1|H1], H2 as [H2|H2];
      apply list_elem_of_fmap in H1 as ([[c1 f1] p1] & -> & H1);
      apply list_elem_of_fmap in H2 as ([[c2 f2] p2] & -> & H2);
      simpl in *; intros Hp.
    + apply prefix_cons_inv_2 in Hp. by apply (IHl _ _ H1 H2).
    + by apply prefix_cons_inv_1 in Hp.
    + by apply prefix_cons_inv_1 in Hp.
    + apply prefix_cons_inv_2 in Hp. by apply (IHr _ _ H1 H2).
Qed.

Lemma leaves_bits n :
  huffman_tree n → ∀ e, e ∈ leaves n [] → Forall is_bit e.2.
Proof.
  induction 1 as [c f|l r Hl IHl Hr IHr]; intros e He.
  - simpl in He. apply list_elem_of_singleton in He as ->. constructor.
  - rewrite leaves_node in He by done. apply elem_of_app in He as [He|He];
      apply list_elem_of_fmap in He as ([[c1 f1] p1] & -> & He); simpl.
    + constructor; [by left|]. by apply (IHl _ He).
    + constructor; [by right|]. by apply (IHr _ He).
Qed.

Lemma leaves_nonempty n :
  huffman_tree n → 2 ≤ length (node_items n) →
  ∀ e, e ∈ leaves n [] → e.2 ≠ [].
Proof.
  intros Hn Hlen e He.
  destruct (huffman_tree_internal n Hn Hlen) as (l & r & -> & Hl & Hr).
  rewrite leaves_node in He by done. apply elem_of_app in He as [He|He];
    apply list_elem_of_fmap in He as ([[c1 f1] p1] & -> & He); done.
Qed.

(** ** compress_file *)

Lemma mapM_Forall2 {A B} (f : A → result B) (P : A → B → Prop) l :
  (∀ a, a ∈ l → ∃ b, f a = inr b ∧ P a b) →
  ∃ l', mapM f l = inr l' ∧ Forall2 P l l'.
Proof.
  induction l as [|a l IH]; intros H; cbn [mapM].
  - by exists [].
  - destruct (H a) as (b & -> & Hb); [by left|]. rewrite bind_inr.
    destruct IH as (l' & -> & Hl'); [intros; apply H; by right|].
    rewrite bind_inr. exists (b :: l'). split; [done|]. by constructor.
Qed.

Lemma compress_file_nil st : compress_file [] st = inr ([], None, st).
Proof. reflexivity. Qed.

Lemma leaves_chars_NoDup text root :
  node_items root ≡ₚ Counter text →
  NoDup (map (fun e => e.1.1) (leaves root [])).
Proof.
  intros Hp. pose proof (Counter_NoDup text) as Hnd.
  unfold dict_keys in Hnd. rewrite <- Hp in Hnd.
  unfold node_items in Hnd. rewrite map_map in Hnd.
  erewrite map_ext; [exact Hnd|]. by intros [[??]?].
Qed.

Lemma leaves_covers text root c :
  node_items root ≡ₚ Counter text → c ∈ text →
  ∃ f p, (c, f, p) ∈ leaves root [].
Proof.
  intros Hp Hc. apply Counter_keys in Hc. unfold dict_keys in Hc.
  rewrite <- Hp in Hc. apply list_elem_of_fmap in Hc as ([c' f] & -> & Hc).
  unfold node_items in Hc.
  apply list_elem_of_fmap in Hc as ([[c2 f2] p] & [= <- <-] & Hc).
  by exists f, p.
Qed.

Lemma compress_file_spec text st :
  text ≠ [] →
  ∃ root byte_data encoded,
    build_huffman_tree text = inr (Some root) ∧ huffman_tree root ∧
    node_items root ≡ₚ Counter text ∧
    compress_file text st =
      inr (byte_data, Some (fold_left set_code (leaves root []) st),
           fold_left set_code (leaves root []) st) ∧
    Forall2 (fun c code =>
               dict_get (fold_left set_code (leaves root []) st) c = Some code ∧
               ∃ f, (c, f, code) ∈ leaves root []) text encoded ∧
    encoded_text text st = inr (concat encoded) ∧
    bit_string byte_data =
      concat encoded ++
      repeat "0" ((8 - length (concat encoded) mod 8) mod 8) ∧
    length byte_data =
      (length (concat encoded) +
       (8 - length (concat encoded) mod 8) mod 8) / 8.
Proof.
  intros Hne.
  destruct (build_huffman_tree_spec text Hne) as (root & c & Hb & Hr & Hi & _).
  unfold compress_file, encoded_text. rewrite Hb, !bind_inr.
  cbn [build_codes default from_option]. rewrite build_codes_node_spec by done.
  set (codes := fold_left set_code (leaves root []) st).
  destruct (mapM_Forall2 (codes_getitem (Some codes))
              (fun c code => dict_get codes c = Some code ∧
                             ∃ f, (c, f, code) ∈ leaves root []) text)
    as (encoded & -> & Henc).
  { intros a Ha. destruct (leaves_covers text root a Hi Ha) as (f & p & Hin).
    exists p. unfold codes_getitem, dict_getitem, codes.
    rewrite (fold_set_code_get _ st a f p); [|by eapply leaves_chars_NoDup|done].
    split; [done|]. split; [done|]. by exists f. }
  rewrite !bind_inr.
  set (padded := concat encoded ++ _).
  destruct (pack_spec padded) as (bs & -> & Hbs & Hlen).
  { apply Forall_app. split.
    - apply Forall_concat. apply list.Forall_forall. intros code Hcode.
      apply (list_elem_of_lookup_1) in Hcode as [i Hi'].
      destruct (Forall2_lookup_r _ _ _ _ _ Henc Hi') as (a & _ & _ & f & Hin).
      by apply (leaves_bits root Hr _ Hin).
    - apply Forall_forall. intros x Hx. apply list_elem_of_In in Hx.
      apply repeat_spec in Hx as ->. by left. }
  { unfold padded. rewrite length_app, repeat_length. lia. }
  rewrite bind_inr. exists root, bs, encoded. split_and!; try done.
  rewrite Hlen. unfold padded. by rewrite length_app, repeat_length.
Qed.

(** ** The reverse map *)

Lemma reverse_dict_snoc codes k v :
  reverse_dict (codes ++ [(k, v)]) = dict_set (reverse_dict codes) v k.
Proof. unfold reverse_dict. by rewrite fold_left_app. Qed.

Lemma reverse_dict_get codes v :
  dict_get (reverse_dict codes) v = last_symbol_with codes v.
Proof.
  unfold last_symbol_with.
  induction codes as [|[k v'] codes IH] using rev_ind; [done|].
  rewrite reverse_dict_snoc, filter_app.
  destruct (decide (v' = v)) as [->|Hne].
  - rewrite dict_get_set_eq. rewrite filter_cons_True by done.
    rewrite map_app. simpl. by rewrite last_snoc.
  - rewrite dict_get_set_ne by done. rewrite filter_cons_False by done.
    rewrite filter_nil, app_nil_r. apply IH.
Qed.

Lemma reverse_dict_get_elem codes v k :
  dict_get (reverse_dict codes) v = Some k → (k, v) ∈ codes.
Proof.
  rewrite reverse_dict_get. unfold last_symbol_with. intros Hl.
  apply last_Some in Hl as [l' Hl].
  assert (Hk : k ∈ map fst (filter (fun e => e.2 = v) codes)).
  { rewrite Hl. apply elem_of_app. right. by left. }
  apply list_elem_of_fmap in Hk as ([k' v'] & -> & Hin).
  apply list_elem_of_filter in Hin as [Hv Hin]. simpl in Hv. by subst.
Qed.

Lemma reverse_dict_get_unique codes v k :
  (k, v) ∈ codes → (∀ k', (k', v) ∈ codes → k' = k) →
  dict_get (reverse_dict codes) v = Some k.
Proof.
  intros Hin Huniq.
  destruct (dict_get (reverse_dict codes) v) as [k'|] eqn:Hg.
  - apply reverse_dict_get_elem in Hg. by rewrite (Huniq k' Hg).
  - rewrite reverse_dict_get in Hg. unfold last_symbol_with in Hg.
    apply last_None in Hg. apply fmap_nil_inv in Hg.
    assert (Hf : (k, v) ∈ filter (fun e => e.2 = v) codes)
      by (by apply list_elem_of_filter).
    rewrite Hg in Hf. by apply elem_of_nil in Hf.
Qed.

(** ** The scan of decompress_file *)

Lemma decode_symbol rev c code rest out :
  decodes_to rev c code →
  fold_left (decode_step rev) (code ++ rest) ([], out) =
  fold_left (decode_step rev) rest ([], out ++ [c]).
Proof.
  intros (Hne & Hget & Hpre).
  assert (H : ∀ s cur, cur ++ s = code → s ≠ [] →
            fold_left (decode_step rev) (s ++ rest) (cur, out) =
            fold_left (decode_step rev) rest ([], out ++ [c])).
  { induction s as [|b s IH]; intros cur Hcs Hs; [done|].
    cbn [app fold_left]. unfold decode_step at 2.
    destruct (decide (s = [])) as [->|Hs'].
    - rewrite Hcs, Hget. done.
    - rewrite Hpre.
      + apply IH; [|done]. by rewrite <- app_assoc.
      + by destruct cur.
      + exists s. by rewrite <- app_assoc.
      + intros Heq. rewrite <- Hcs in Heq.
        apply (f_equal length) in Heq. rewrite !length_app in Heq.
        simpl in Heq. destruct s; [done|simpl in Heq; lia]. }
  by apply (H code []).
Qed.

Lemma decode_concat rev text : ∀ encoded tail out,
  Forall2 (decodes_to rev) text encoded →
  fold_left (decode_step rev) (concat encoded ++ tail) ([], out) =
  fold_left (decode_step rev) tail ([], out ++ text).
Proof.
  induction text as [|c text IH]; intros encoded tail out Henc.
  - apply Forall2_nil_inv_l in Henc as ->. simpl. by rewrite app_nil_r.
  - apply Forall2_cons_inv_l in Henc as (code & encoded' & Hc & Henc & ->).
    cbn [concat]. rewrite <- app_assoc.
    rewrite (decode_symbol rev c code) by done.
    rewrite IH by done. by rewrite <- app_assoc.
Qed.

Lemma decode_unmatched rev tail : ∀ cur out,
  (∀ p, p ≠ [] → p `prefix_of` tail → dict_get rev (cur ++ p) = None) →
  fold_left (decode_step rev) tail (cur, out) = (cur ++ tail, out).
Proof.
  induction tail as [|b tail IH]; intros cur out Hun; simpl.
  - by rewrite app_nil_r.
  - rewrite (Hun [b]); [|done|by exists tail].
    rewrite IH; [by rewrite <- app_assoc|].
    intros p Hp [k ->]. rewrite <- app_assoc. apply Hun; [done|].
    by exists k.
Qed.

Lemma decompress_file_eq byte_data codes :
  decompress_file byte_data (Some codes) =
  inr (decode_loop (reverse_dict codes) (bit_string byte_data)).2.
Proof.
  unfold decompress_file.
  by destruct (decode_loop (reverse_dict codes) (bit_string byte_data)).
Qed.

(** A table with distinct symbols, prefix-free and without the empty code
    decodes each of its symbols. *)
Lemma table_decodes_to codes c code :
  NoDup (dict_keys codes) → prefix_free codes →
  (∀ a ca, (a, ca) ∈ codes → ca ≠ []) →
  (c, code) ∈ codes → decodes_to (reverse_dict codes) c code.
Proof.
  intros Hnd Hpf Hne Hin.
  assert (Hsame : ∀ k p, (k, p) ∈ codes → p `prefix_of` code → k = c ∧ p = code).
  { intros k p Hk Hp. destruct (decide (k = c)) as [->|Hkc].
    - split; [done|]. apply dict_get_elem in Hk, Hin; try done. congruence.
    - apply dict_get_elem in Hk, Hin; try done. by destruct (Hpf k c p code). }
  split_and!.
  - by eapply Hne.
  - apply reverse_dict_get_unique; [done|].
    intros k' Hk'. by destruct (Hsame k' code).
  - intros p Hp Hpre Hneq.
    destruct (dict_get (reverse_dict codes) p) as [k|] eqn:Hg; [|done].
    apply reverse_dict_get_elem in Hg. by destruct (Hsame k p).
Qed.

(** ** Depth profiles of strict binary trees *)

Lemma kraft_perm ds ds' : ds ≡ₚ ds' → kraft ds → kraft ds'.
Proof.
  intros Hp Hk. inversion Hk as [|d ds0 ds1 Hk0 Hp0]; subst.
  - apply Permutation_singleton_l in Hp. subst. constructor.
  - eapply kraft_split; [exact Hk0|]. by rewrite <- Hp.
Qed.

Lemma kraft_max ds :
  kraft ds → 2 ≤ length ds →
  ∃ m ds', ds ≡ₚ m :: m :: ds' ∧ 1 ≤ m ∧ (∀ d, d ∈ ds' → d ≤ m) ∧
           kraft ((m - 1) :: ds').
Proof.
  induction 1 as [|d ds ds2 Hk IH Hp]; intros Hlen; [simpl in Hlen; lia|].
  destruct ds as [|d0 ds0].
  - exists (S d), []. split_and!; [done|lia| |].
    + intros x Hx. by apply elem_of_nil in Hx.
    + by replace (S d - 1) with d by lia.
  - destruct IH as (m0 & D0 & Hp0 & Hm0 & Hmax0 & Hk0); [simpl; lia|].
    destruct (decide (d = m0)) as [->|Hne].
    + apply Permutation_cons_inv in Hp0.
      exists (S m0), (m0 :: D0). split_and!.
      * by rewrite Hp, Hp0.
      * lia.
      * intros x Hx. apply elem_of_cons in Hx as [->|Hx]; [lia|].
        specialize (Hmax0 x Hx). lia.
      * replace (S m0 - 1) with m0 by lia.
        eapply kraft_perm; [|exact Hk]. by rewrite Hp0.
    + assert (Hd : d ∈ D0).
      { assert (Hd : d ∈ m0 :: m0 :: D0) by (rewrite <- Hp0; by left).
        by repeat (apply elem_of_cons in Hd as [?|Hd]; [done|]). }
      pose proof (Hmax0 d Hd) as Hdm.
      apply elem_of_Permutation in Hd as [D1 HD1].
      assert (Hp1 : d0 :: ds0 ≡ₚ m0 :: m0 :: D1).
      { apply (Permutation_cons_inv (a := d)). rewrite Hp0, HD1.
        rewrite (Permutation_swap d m0). apply Permutation_swap. }
      exists m0, (S d :: S d :: D1). split_and!.
      * rewrite Hp, Hp1.
        change ([S d; S d] ++ [m0; m0] ++ D1 ≡ₚ [m0; m0] ++ [S d; S d] ++ D1).
        rewrite !app_assoc. f_equiv. apply Permutation_app_comm.
      * done.
      * intros x Hx. repeat (apply elem_of_cons in Hx as [->|Hx]; [lia|]).
        apply Hmax0. rewrite HD1. by right.
      * eapply (kraft_split d ((m0 - 1) :: D1)).
        -- eapply kraft_perm; [|exact Hk0]. rewrite HD1. apply Permutation_swap.
        -- rewrite (Permutation_swap (m0 - 1) (S d)). symmetry.
           apply Permutation_swap.
Qed.

(** A prefix-code tree is dominated by a strict one: leaf by leaf its depths
    are at least those of a profile that satisfies [kraft]. *)
Lemma code_depths_dominated t : ∀ d d',
  d' ≤ d →
  ∃ q : list (ascii * nat),
    map fst q = map fst (code_depths t d) ∧
    (∀ ds, kraft (d' :: ds) → kraft (map snd q ++ ds)) ∧
    Forall2 (fun x y => x.2 ≤ y.2) q (code_depths t d).
Proof.
  induction t as [c|t IH|l IHl r IHr]; intros d d' Hd; cbn [code_depths].
  - exists [(c, d')]. split_and!; try done. by constructor.
  - destruct (IH (S d) d') as (q & H1 & H2 & H3); [lia|]. by exists q.
  - destruct (IHl (S d) (S d')) as (ql & Hl1 & Hl2 & Hl3); [lia|].
    destruct (IHr (S d) (S d')) as (qr & Hr1 & Hr2 & Hr3); [lia|].
    exists (ql ++ qr). split_and!.
    + by rewrite !map_app, Hl1, Hr1.
    + intros ds Hk. rewrite map_app, <- app_assoc.
      apply Hl2. eapply kraft_perm; [symmetry; apply Permutation_middle|].
      apply Hr2. eapply kraft_split; [exact Hk|]. done.
    + by apply Forall2_app.
Qed.

Lemma depths_cost_mono fm (q q' : list (ascii * nat)) :
  map fst q = map fst q' → Forall2 (fun x y => x.2 ≤ y.2) q q' →
  depths_cost fm q ≤ depths_cost fm q'.
Proof.
  intros Hf Hle. unfold depths_cost.
  induction Hle as [|[c d] [c' d'] q q' Hd Hle IH]; [done|].
  simpl in *. injection Hf as -> Hf. specialize (IH Hf). nia.
Qed.

(** ** Exchange argument *)

Lemma profile_cost_perm p p' : p ≡ₚ p' → profile_cost p = profile_cost p'.
Proof. intros Hp. unfold profile_cost. by rewrite Hp. Qed.

#[global] Instance profile_cost_proper :
  Proper (Permutation ==> eq) profile_cost.
Proof. intros p p'. apply profile_cost_perm. Qed.

Lemma bring_min_to_max (p : list (nat * nat)) a m :
  a ∈ map fst p → m ∈ map snd p →
  (∀ w, w ∈ map fst p → a ≤ w) → (∀ d, d ∈ map snd p → d ≤ m) →
  ∃ p0, map fst p ≡ₚ a :: map fst p0 ∧ map snd p ≡ₚ m :: map snd p0 ∧
        a * m + profile_cost p0 ≤ profile_cost p.
Proof.
  intros Ha Hm Hmin Hmax.
  apply list_elem_of_fmap in Ha as ([a' d1] & -> & Ha). simpl in *.
  apply elem_of_Permutation in Ha as [p1 Hp1].
  destruct (decide (d1 = m)) as [->|Hne].
  - exists p1. rewrite Hp1. by split_and!.
  - assert (Hm1 : m ∈ map snd p1).
    { rewrite Hp1 in Hm. simpl in Hm. by apply elem_of_cons in Hm as [?|?]. }
    apply list_elem_of_fmap in Hm1 as ([w2 m'] & -> & Hm1). simpl in *.
    apply elem_of_Permutation in Hm1 as [p2 Hp2].
    exists ((w2, d1) :: p2).
    assert (Hp : p ≡ₚ (a', d1) :: (w2, m') :: p2) by (by rewrite Hp1, Hp2).
    split_and!.
    + by rewrite Hp.
    + rewrite Hp. simpl. apply Permutation_swap.
    + rewrite (profile_cost_perm _ _ Hp). unfold profile_cost. simpl.
      assert (a' ≤ w2).
      { apply Hmin. rewrite Hp. simpl. right. by left. }
      assert (d1 ≤ m').
      { apply Hmax. rewrite Hp. simpl. by left. }
      nia.
Qed.

Lemma exchange (p : list (nat * nat)) a b ws :
  kraft (map snd p) → map fst p ≡ₚ a :: b :: ws →
  (∀ y, y ∈ b :: ws → a ≤ y) → (∀ y, y ∈ ws → b ≤ y) →
  ∃ p', kraft (map snd p') ∧ map fst p' ≡ₚ (a + b) :: ws ∧
        profile_cost p' + a + b ≤ profile_cost p.
Proof.
  intros Hk Hw Ha Hb.
  destruct (kraft_max _ Hk) as (m & ds & Hd & Hm & Hmax & Hk').
  { apply Permutation_length in Hw. rewrite !length_map in *. simpl in Hw. lia. }
  destruct (bring_min_to_max p a m) as (p0 & Hw0 & Hd0 & Hc0).
  { rewrite Hw. by left. }
  { rewrite Hd. by left. }
  { intros w Hin. rewrite Hw in Hin.
    apply elem_of_cons in Hin as [->|Hin]; [done|by apply Ha]. }
  { intros d Hin. rewrite Hd in Hin.
    repeat (apply elem_of_cons in Hin as [->|Hin]; [done|]). by apply Hmax. }
  rewrite Hw in Hw0. apply Permutation_cons_inv in Hw0.
  rewrite Hd in Hd0. apply Permutation_cons_inv in Hd0.
  destruct (bring_min_to_max p0 b m) as (p1 & Hw1 & Hd1 & Hc1).
  { rewrite <- Hw0. by left. }
  { rewrite <- Hd0. by left. }
  { intros w Hin. rewrite <- Hw0 in Hin.
    apply elem_of_cons in Hin as [->|Hin]; [done|by apply Hb]. }
  { intros d Hin. rewrite <- Hd0 in Hin.
    apply elem_of_cons in Hin as [->|Hin]; [done|by apply Hmax]. }
  rewrite <- Hw0 in Hw1. apply Permutation_cons_inv in Hw1.
  rewrite <- Hd0 in Hd1. apply Permutation_cons_inv in Hd1.
  exists ((a + b, m - 1) :: p1). split_and!.
  - simpl. eapply kraft_perm; [|exact Hk']. by rewrite Hd1.
  - simpl. by rewrite Hw1.
  - unfold profile_cost in *. simpl. nia.
Qed.

Lemma greedy_lower_bound ws c :
  greedy ws c →
  ∀ p, kraft (map snd p) → map fst p ≡ₚ ws → c ≤ profile_cost p.
Proof.
  induction 1 as [w|ws a b ws' c Hp Ha Hb Hg IH]; intros p Hk Hw; [lia|].
  destruct (exchange p a b ws') as (p' & Hk' & Hw' & Hc); try done.
  { by rewrite Hw. }
  specialize (IH p' Hk' Hw'). lia.
Qed.

(** ** The code table of a first call *)

Lemma fresh_codes text root :
  node_items root ≡ₚ Counter text →
  fold_left set_code (leaves root []) [] = node_paths root [] ∧
  NoDup (dict_keys (node_paths root [])).
Proof.
  intros Hi. pose proof (leaves_chars_NoDup text root Hi) as Hnd. split.
  - by rewrite fold_set_code_fresh.
  - unfold dict_keys, node_paths. rewrite map_map.
    erewrite map_ext; [exact Hnd|]. by intros [[??]?].
Qed.

Lemma node_paths_elem root c code :
  (c, code) ∈ node_paths root [] ↔ ∃ f, (c, f, code) ∈ leaves root [].
Proof.
  unfold node_paths. rewrite list_elem_of_fmap. split.
  - intros ([[c' f] p] & [= -> ->] & Hin). by exists f.
  - intros [f Hin]. by exists (c, f, code).
Qed.

Lemma node_paths_prefix_free root :
  huffman_tree root → prefix_free (node_paths root []).
Proof.
  intros Hr a b ca cb Ha Hb Hne.
  apply dict_get_Some_elem, node_paths_elem in Ha as [fa Ha].
  apply dict_get_Some_elem, node_paths_elem in Hb as [fb Hb].
  by apply (leaves_prefix_free root Hr _ _ Ha Hb).
Qed.

(** ** Shape of the tree *)

(** C10: for a frequency map with n >= 1 distinct symbols the builder returns
    a tree in which every node has no child or two children, with exactly n
    nodes without children and n - 1 nodes with children, and in which every
    node with children carries no symbol and the sum of its two children's
    frequencies; the symbol-carrying nodes are the entries of the frequency
    map. *)
Theorem build_huffman_tree_shape (text : str) :
  1 ≤ length (Counter text) →
  ∃ root,
    build_huffman_tree text = inr (Some root) ∧
    strict_binary root = true ∧
    num_leaves root = length (Counter text) ∧
    num_internal root = length (Counter text) - 1 ∧
    sums_ok root = true ∧
    node_items root ≡ₚ Counter text.
Proof.
  intros Hn.
  assert (Hne : text ≠ []) by (intros ->; simpl in Hn; lia).
  destruct (build_huffman_tree_spec text Hne) as (root & c & Hb & Hr & Hi & _).
  destruct (huffman_tree_shape root Hr) as (H1 & H2 & H3 & H4).
  exists root. apply Permutation_length in Hi as Hl.
  split_and!; try done; lia.
Qed.

(** The shape of the tree of "abracadabra", with its 5 symbols. *)
Lemma build_huffman_tree_shape_witness :
  ∃ root,
    build_huffman_tree (lit "abracadabra") = inr (Some root) ∧
    strict_binary root = true ∧ num_leaves root = 5 ∧ num_internal root = 4 ∧
    sums_ok root = true ∧
    node_items root ≡ₚ Counter (lit "abracadabra").
Proof.
  apply (build_huffman_tree_shape (lit "abracadabra")). vm_compute. lia.
Defined.

(** ** Prefix-freedom *)



(** ** Optimality *)

Lemma freq_map_lookup (fm : dict ascii nat) :
  NoDup (dict_keys fm) →
  map (fun c => default 0 (dict_get fm c)) (dict_keys fm) = map snd fm.
Proof.
  induction fm as [|[k v] fm IH]; intros Hnd; [done|].
  cbn [dict_keys map fst snd] in *. apply NoDup_cons in Hnd as [Hk Hnd].
  cbn [dict_get]. rewrite decide_True by done. simpl. f_equal.
  rewrite <- IH by done. apply map_ext_in. intros c Hc.
  rewrite decide_False; [done|]. intros ->. apply Hk.
  by apply list_elem_of_In.
Qed.

Lemma greedy_le_code_tree_cost fm c t :
  NoDup (dict_keys fm) → greedy (map snd fm) c → code_tree_for fm t →
  c ≤ code_tree_cost fm t.
Proof.
  intros Hnd Hg Ht.
  destruct (code_depths_dominated t 0 0) as (q & Hq1 & Hq2 & Hq3); [lia|].
  set (w := fun c => default 0 (dict_get fm c)).
  set (p := map (fun '(c, d) => (w c, d)) q).
  assert (Hsnd : map snd p = map snd q).
  { unfold p. rewrite map_map. apply map_ext. by intros [??]. }
  assert (Hfst : map fst p = map w (map fst q)).
  { unfold p. rewrite !map_map. apply map_ext. by intros [??]. }
  assert (Hcost : profile_cost p = depths_cost fm q).
  { unfold profile_cost, depths_cost, p. rewrite map_map. f_equal.
    apply map_ext. by intros [??]. }
  etrans; [apply (greedy_lower_bound _ _ Hg p)|].
  - rewrite Hsnd. rewrite <- (app_nil_r (map snd q)). apply Hq2. constructor.
  - rewrite Hfst, Hq1. unfold code_tree_for in Ht. rewrite Ht.
    unfold w. by rewrite freq_map_lookup.
  - rewrite Hcost. by apply depths_cost_mono.
Qed.

Lemma to_code_tree_depths root :
  huffman_tree root →
  ∀ d, code_depths (to_code_tree root) d =
       map (fun '(c, _, p) => (c, d + length p)) (leaves root []).
Proof.
  induction 1 as [c f|l r Hl IHl Hr IHr]; intros d.
  - simpl. by rewrite Nat.add_0_r.
  - rewrite leaves_node by done. cbn [to_code_tree code_depths].
    rewrite IHl, IHr, map_app, !map_map.
    f_equal; apply map_ext; intros [[c f] p]; simpl; f_equal; lia.
Qed.

Lemma leaf_freq_lookup text root c f p :
  node_items root ≡ₚ Counter text → (c, f, p) ∈ leaves root [] →
  dict_get (Counter text) c = Some f.
Proof.
  intros Hi Hin. apply dict_get_elem; [apply Counter_NoDup|].
  rewrite <- Hi. unfold node_items. apply list_elem_of_fmap.
  by exists (c, f, p).
Qed.

Lemma to_code_tree_cost text root :
  huffman_tree root → node_items root ≡ₚ Counter text →
  code_tree_for (Counter text) (to_code_tree root) ∧
  code_tree_cost (Counter text) (to_code_tree root) = weighted_path_length root.
Proof.
  intros Hr Hi. unfold code_tree_for, code_tree_cost, depths_cost.
  rewrite to_code_tree_depths by done. split.
  - unfold dict_keys. rewrite <- Hi. unfold node_items. rewrite !map_map.
    erewrite map_ext; [done|]. by intros [[??]?].
  - unfold weighted_path_length. rewrite map_map. f_equal.
    apply map_ext_in. intros [[c f] p] Hin. apply list_elem_of_In in Hin.
    by rewrite (leaf_freq_lookup text root c f p Hi Hin).
Qed.

Lemma table_cost_fresh text root :
  huffman_tree root → node_items root ≡ₚ Counter text →
  table_cost (Counter text) (build_codes_node root [] []) =
  weighted_path_length root.
Proof.
  intros Hr Hi. rewrite build_codes_node_spec by done.
  unfold table_cost. rewrite <- Hi.
  unfold node_items, weighted_path_length. rewrite map_map. f_equal.
  apply map_ext_in. intros [[c f] p] Hin. apply list_elem_of_In in Hin.
  rewrite (fold_set_code_get _ [] c f p); [done| |done].
  by eapply leaves_chars_NoDup.
Qed.

(** C5: for every non-empty text the builder returns a tree whose weighted
    path length (the sum over the symbols of frequency times depth, which is
    the sum of frequency times code length in the code table) is at most the
    weighted path length of every prefix-code tree for the text's frequency
    map, and is itself the weighted path length of such a tree: it is the
    minimum. *)
Theorem build_huffman_tree_optimal (text : str) :
  text ≠ [] →
  ∃ root,
    build_huffman_tree text = inr (Some root) ∧
    weighted_path_length root =
      table_cost (Counter text) (build_codes_node root [] []) ∧
    (∀ t, code_tree_for (Counter text) t →
          weighted_path_length root ≤ code_tree_cost (Counter text) t) ∧
    (∃ t, code_tree_for (Counter text) t ∧
          code_tree_cost (Counter text) t = weighted_path_length root).
Proof.
  intros Hne.
  destruct (build_huffman_tree_spec text Hne) as
    (root & c & Hb & Hr & Hi & Hg & Hc).
  exists root. split_and!; [done| | |].
  - by rewrite (table_cost_fresh text).
  - intros t Ht. rewrite Hc.
    apply greedy_le_code_tree_cost; [apply Counter_NoDup|done|done].
  - exists (to_code_tree root). by apply to_code_tree_cost.
Qed.

(** The tree of "abracadabra" is optimal. *)
Lemma build_huffman_tree_optimal_witness :
  ∃ root,
    build_huffman_tree (lit "abracadabra") = inr (Some root) ∧
    weighted_path_length root =
      table_cost (Counter (lit "abracadabra")) (build_codes_node root [] []) ∧
    (∀ t, code_tree_for (Counter (lit "abracadabra")) t →
          weighted_path_length root ≤
          code_tree_cost (Counter (lit "abracadabra")) t) ∧
    (∃ t, code_tree_for (Counter (lit "abracadabra")) t ∧
          code_tree_cost (Counter (lit "abracadabra")) t =
          weighted_path_length root).
Proof.
  apply (build_huffman_tree_optimal (lit "abracadabra")). discriminate.
Defined.

(** ** Bit packing *)

Lemma bit_string_cons b bs :
  bit_string (b :: bs) = format_08b (Byte.to_N b) ++ bit_string bs.
Proof. reflexivity. Qed.

Lemma bit_string_length bs : length (bit_string bs) = 8 * length bs.
Proof.
  induction bs as [|b bs IH]; [done|].
  rewrite bit_string_cons, length_app, format_08b_length, IH. simpl. lia.
Qed.

Lemma bit_string_reshape bs :
  reshape (replicate (length bs) 8) (bit_string bs) =
  map (fun b => format_08b (Byte.to_N b)) bs.
Proof.
  induction bs as [|b bs IH]; [done|].
  rewrite bit_string_cons. cbn [length replicate reshape map].
  rewrite take_app_length', drop_app_length'
    by (symmetry; apply format_08b_length).
  by rewrite IH.
Qed.

Lemma msb_first_bytes_bit_string bs :
  msb_first_bytes (bit_string bs) = map Byte.to_N bs.
Proof.
  unfold msb_first_bytes. rewrite bit_string_length.
  replace (8 * length bs / 8) with (length bs) by lia.
  rewrite bit_string_reshape, map_map. apply map_ext. intros b.
  apply format_08b_value.
Qed.

(** C6: the bytes written are the concatenation, in input order, of the
    code of each input symbol in the emitted table, followed by fewer than 8
    zero bits that bring the length to a multiple of 8, cut into groups of 8
    bits read most-significant-bit-first; their number is the padded bit
    length divided by 8.  This holds whatever the default dict holds. *)
Theorem compress_file_packs (text : str) (codes_default : dict ascii str) :
  ∃ byte_data codes codes_default' encoded pad,
    compress_file text codes_default = inr (byte_data, codes, codes_default') ∧
    Forall2 (fun c code =>
               ∃ table, codes = Some table ∧ dict_get table c = Some code)
            text encoded ∧
    pad < 8 ∧ (length (concat encoded) + pad) mod 8 = 0 ∧
    map Byte.to_N byte_data =
      msb_first_bytes (concat encoded ++ repeat "0" pad) ∧
    length byte_data = (length (concat encoded) + pad) / 8.
Proof.
  destruct (decide (text = [])) as [->|Hne].
  - exists [], None, codes_default, [], 0.
    split_and!; try done; try constructor; lia.
  - destruct (compress_file_spec text codes_default Hne) as
      (root & bs & enc & _ & _ & _ & -> & Henc & _ & Hbits & Hlen).
    eexists bs, _, _, enc, _. split_and!; [done| | | | |exact Hlen].
    + eapply Forall2_impl; [exact Henc|]. intros c code [Hg _]. eauto.
    + lia.
    + lia.
    + by rewrite <- Hbits, msb_first_bytes_bit_string.
Qed.

(** ** Round trip *)

Lemma roundtrip_fresh text :
  2 ≤ length (Counter text) →
  ∃ root encoded,
    build_huffman_tree text = inr (Some root) ∧
    encoded_text text [] = inr (concat encoded) ∧
    roundtrip text [] =
      inr (decode_loop (reverse_dict (node_paths root []))
             (concat encoded ++
              repeat "0" ((8 - length (concat encoded) mod 8) mod 8))).2 ∧
    Forall2 (decodes_to (reverse_dict (node_paths root []))) text encoded.
Proof.
  intros Hn.
  assert (Hne : text ≠ []) by (intros ->; simpl in Hn; lia).
  destruct (compress_file_spec text [] Hne) as
    (root & bs & enc & Hb & Hr & Hi & Hc & Henc & He & Hbits & _).
  exists root, enc.
  destruct (fresh_codes text root Hi) as [Hfresh Hnd].
  rewrite Hfresh in *. split_and!; [done|done| |].
  - unfold roundtrip. rewrite Hc, bind_inr.
    by rewrite decompress_file_eq, Hbits.
  - eapply Forall2_impl; [exact Henc|]. intros c code [Hg _].
    apply table_decodes_to; try done.
    + by apply node_paths_prefix_free.
    + intros a ca Ha. apply node_paths_elem in Ha as [f Ha].
      apply (leaves_nonempty root Hr) in Ha; [done|].
      apply Permutation_length in Hi. unfold node_items in *. lia.
    + by apply dict_get_Some_elem.
Qed.

(** C1 (amended): a text with at least two distinct symbols whose
    concatenated code-bit length is a multiple of 8, compressed by a first
    call (fresh default dict), decompresses to itself. *)
Theorem roundtrip_aligned (text e : str) :
  2 ≤ length (Counter text) →
  encoded_text text [] = inr e → length e mod 8 = 0 →
  roundtrip text [] = inr text.
Proof.
  intros Hn He Hlen.
  destruct (roundtrip_fresh text Hn) as (root & enc & _ & He' & -> & Hdec).
  rewrite He in He'. injection He' as ->.
  replace ((8 - length (concat enc) mod 8) mod 8) with 0 by lia.
  cbn [repeat]. unfold decode_loop.
  rewrite (decode_concat _ text enc [] [] Hdec). done.
Qed.

(** "abababab" has two symbols and 8 code bits. *)
Lemma roundtrip_aligned_witness :
  2 ≤ length (Counter (lit "abababab")) ∧
  encoded_text (lit "abababab") [] = inr (lit "10101010") ∧
  length (lit "10101010") mod 8 = 0 ∧
  roundtrip (lit "abababab") [] = inr (lit "abababab").
Proof.
  split_and!; [vm_compute; lia|reflexivity|reflexivity|].
  apply (roundtrip_aligned (lit "abababab") (lit "10101010"));
    [vm_compute; lia|reflexivity|reflexivity].
Defined.

Lemma decode_out_app rev l : ∀ cur out,
  fold_left (decode_step rev) l (cur, out) =
  ((fold_left (decode_step rev) l (cur, [])).1,
   out ++ (fold_left (decode_step rev) l (cur, [])).2).
Proof.
  induction l as [|b l IH]; intros cur out; cbn [fold_left].
  - simpl. by rewrite app_nil_r.
  - unfold decode_step at 2 4 6. destruct (dict_get rev (cur ++ [b])) as [s|].
    + rewrite (IH [] (out ++ [s])), (IH [] ([] ++ [s])).
      simpl. by rewrite <- app_assoc.
    + apply IH.
Qed.

(** Without the alignment, the text comes back followed by the symbols that
    the padding bits decode to. *)
Lemma roundtrip_padding text :
  2 ≤ length (Counter text) →
  ∃ phantom, roundtrip text [] = inr (text ++ phantom).
Proof.
  intros Hn.
  destruct (roundtrip_fresh text Hn) as (root & enc & _ & _ & -> & Hdec).
  unfold decode_loop. rewrite (decode_concat _ text enc _ [] Hdec).
  rewrite decode_out_app. eauto.
Qed.

(** C1 as stated fails: "ab" (2 code bits, 6 padding bits that decode as six
    more "b") does not decompress to itself; "aaaa", whose code-bit length 0
    is a multiple of 8, decompresses to the empty text; and "xzxzxzxz" (8
    code bits), compressed after a call on "yx" has left its codes in the
    default dict, decompresses to "yzyzyzyz". *)
Lemma roundtrip_counterexample :
  (lit "ab" ≠ [] ∧ roundtrip (lit "ab") [] = inr (lit "abbbbbbb") ∧
   roundtrip (lit "ab") [] ≠ inr (lit "ab")) ∧
  (encoded_text (lit "aaaa") [] = inr [] ∧ length (@nil ascii) mod 8 = 0 ∧
   roundtrip (lit "aaaa") [] = inr [] ∧
   roundtrip (lit "aaaa") [] ≠ inr (lit "aaaa")) ∧
  (∃ b1 c1 st1,
     compress_file (lit "yx") [] = inr (b1, c1, st1) ∧
     encoded_text (lit "xzxzxzxz") st1 = inr (lit "10101010") ∧
     roundtrip (lit "xzxzxzxz") st1 = inr (lit "yzyzyzyz") ∧
     roundtrip (lit "xzxzxzxz") st1 ≠ inr (lit "xzxzxzxz")).
Proof.
  split_and!; try done.
  eexists _, _, _. split; [reflexivity|]. by split_and!.
Qed.

(** ** Single-symbol and empty texts *)

Lemma count_step_same c k : count_step [(c, k)] c = [(c, k + 1)].
Proof. unfold count_step. simpl. by rewrite !decide_True. Qed.

Lemma Counter_repeat c n : Counter (repeat c (S n)) = [(c, S n)].
Proof.
  unfold Counter.
  assert (H : ∀ n k, fold_left count_step (repeat c n) [(c, k)] = [(c, k + n)]).
  { clear n. induction n as [|n IH]; intros k; cbn [repeat fold_left].
    - by rewrite Nat.add_0_r.
    - rewrite count_step_same, IH. do 2 f_equal. lia. }
  cbn [repeat fold_left]. change (count_step [] c) with [(c, 1)].
  by rewrite H.
Qed.

Lemma mapM_single_code c n :
  mapM (codes_getitem (Some [(c, []:str)])) (repeat c n) = inr (repeat [] n).
Proof.
  induction n as [|n IH]; [done|].
  cbn [repeat mapM]. rewrite IH.
  unfold codes_getitem, dict_getitem. cbn [dict_get].
  by rewrite decide_True.
Qed.

Lemma concat_repeat_nil {A} n : concat (repeat (@nil A) n) = [].
Proof. induction n; [done|]. simpl. done. Qed.

Lemma build_huffman_tree_repeat c n :
  build_huffman_tree (repeat c (S n)) = inr (Some (Node_init (Some c) (S n))).
Proof. unfold build_huffman_tree. rewrite Counter_repeat. reflexivity. Qed.

(** C2, what the code does: a text that repeats one symbol gets the empty
    code for its symbol, no byte is written, and decompressing the package
    gives the empty text. *)
Theorem single_symbol_empty_code (c : ascii) (n : nat) :
  compress_file (repeat c (S n)) [] = inr ([], Some [(c, [])], [(c, [])]) ∧
  roundtrip (repeat c (S n)) [] = inr [].
Proof.
  assert (Hc : compress_file (repeat c (S n)) [] =
               inr ([], Some [(c, [])], [(c, [])])).
  { unfold compress_file. rewrite build_huffman_tree_repeat, bind_inr.
    change (build_codes (Some (Node_init (Some c) (S n))) [] [])
      with (Some [(c, []:str)]).
    rewrite mapM_single_code, bind_inr, concat_repeat_nil. reflexivity. }
  split; [done|]. unfold roundtrip. by rewrite Hc.
Qed.

(** C3, what the code does: the empty text gives no byte and the value
    [None] (JSON null) as code table, whatever the default dict holds, and
    decompressing that package raises AttributeError. *)
Theorem empty_text_null_table (codes_default : dict ascii str) :
  compress_file [] codes_default = inr ([], None, codes_default) ∧
  roundtrip [] codes_default = inl AttributeError.
Proof. done. Qed.

(** ** Hidden state *)

(** C7, what the code does: after a call on "yx", a call on "xzxzxzxz"
    writes a code table that still holds "y" and differs from the table a
    first call on "xzxzxzxz" writes, and the package no longer decompresses
    to the text. *)
Theorem compress_file_hidden_state :
  ∃ b1 c1 st1,
    compress_file (lit "yx") [] = inr (b1, c1, st1) ∧
    compress_file (lit "xzxzxzxz") st1 =
      inr ([Byte.xaa],
           Some [("x", lit "1"); ("y", lit "1"); ("z", lit "0")],
           [("x", lit "1"); ("y", lit "1"); ("z", lit "0")]) ∧
    compress_file (lit "xzxzxzxz") [] =
      inr ([Byte.xaa],
           Some [("z", lit "0"); ("x", lit "1")],
           [("z", lit "0"); ("x", lit "1")]) ∧
    roundtrip (lit "xzxzxzxz") st1 = inr (lit "yzyzyzyz") ∧
    roundtrip (lit "xzxzxzxz") [] = inr (lit "xzxzxzxz").
Proof. eexists _, _, _. split; [reflexivity|]. split_and!; reflexivity. Qed.

(** ** Decoding never fails *)

(** C8 as stated fails: the table maps "a" and "b" to the same bit string
    "0", and decoding the byte 0x00 with it returns "bbbbbbbb". *)
Lemma duplicate_codes_counterexample :
  dict_get [("a", lit "0"); ("b", lit "0")] "a" = Some (lit "0") ∧
  dict_get [("a", lit "0"); ("b", lit "0")] "b" = Some (lit "0") ∧
  decompress_file [Byte.x00] (Some [("a", lit "0"); ("b", lit "0")]) =
    inr (lit "bbbbbbbb").
Proof. split_and!; reflexivity. Qed.

(** C8 (amended): decoding with a table from symbols to bit strings never
    fails, also when the table has duplicate bit strings; the reverse map
    sends each bit string to the last symbol, in table order, that the table
    maps to it. *)
Theorem decompress_file_duplicate_codes
    (byte_data : list byte) (codes : dict ascii str) :
  (∃ text, decompress_file byte_data (Some codes) = inr text) ∧
  ∀ v, dict_get (reverse_dict codes) v = last_symbol_with codes v.
Proof.
  split.
  - rewrite decompress_file_eq. eauto.
  - apply reverse_dict_get.
Qed.

(** C9 as stated fails: with the table {"a": "11"} the scan of the byte 0x80
    ends with the accumulator "10000000", which never matched, and the
    decoding returns the empty text. *)
Lemma unmatched_bits_counterexample :
  decode_loop (reverse_dict [("a", lit "11")]) (bit_string [Byte.x80]) =
    (lit "10000000", []) ∧
  decompress_file [Byte.x80] (Some [("a", lit "11")]) = inr [].
Proof. split; reflexivity. Qed.

(** C9 (amended): decoding does not fail on unmatched trailing bits, it
    drops them: when the bit string is the codes of the symbols of [text],
    each decoded by the reverse map, followed by a tail none of whose
    non-empty prefixes is in the reverse map, the scan ends with the tail as
    accumulator and the decoding returns [text]. *)
Theorem decompress_file_drops_unmatched
    (byte_data : list byte) (codes : dict ascii str)
    (text : str) (encoded : list str) (tail : str) :
  bit_string byte_data = concat encoded ++ tail →
  Forall2 (decodes_to (reverse_dict codes)) text encoded →
  (∀ p, p ≠ [] → p `prefix_of` tail → dict_get (reverse_dict codes) p = None) →
  decode_loop (reverse_dict codes) (bit_string byte_data) = (tail, text) ∧
  decompress_file byte_data (Some codes) = inr text.
Proof.
  intros Hbits Hdec Htail.
  assert (Hl : decode_loop (reverse_dict codes) (bit_string byte_data) =
               (tail, text)).
  { unfold decode_loop. rewrite Hbits, (decode_concat _ text encoded) by done.
    by rewrite decode_unmatched. }
  split; [done|]. by rewrite decompress_file_eq, Hl.
Qed.

(** The byte 0xa0 holds the codes of "a" and "b" and five bits that match
    nothing. *)
Lemma decompress_file_drops_unmatched_witness :
  decode_loop (reverse_dict [("a", lit "1"); ("b", lit "01")])
              (bit_string [Byte.xa0]) = (lit "00000", lit "ab") ∧
  decompress_file [Byte.xa0] (Some [("a", lit "1"); ("b", lit "01")]) =
    inr (lit "ab").
Proof.
  apply (decompress_file_drops_unmatched [Byte.xa0]
           [("a", lit "1"); ("b", lit "01")] (lit "ab")
           [lit "1"; lit "01"] (lit "00000")).
  - reflexivity.
  - repeat constructor; try done.
    + intros p Hp [k Hk] Hne. destruct p as [|x [|y p]]; by simplify_eq/=.
    + intros p Hp [k Hk] Hne.
      destruct p as [|x [|y [|z p]]]; simplify_eq/=; done.
  - intros p Hp [k Hk].
    do 6 (destruct p as [|? p]; simplify_eq/=; try done).
Defined.

(** ** The frequency map counts occurrences *)

Lemma Counter_fold_get text : ∀ m c,
  default 0 (dict_get (fold_left count_step text m) c) =
  default 0 (dict_get m c) + length (filter (fun x => x = c) text).
Proof.
  induction text as [|a text IH]; intros m c; cbn [fold_left].
  - simpl. lia.
  - rewrite IH. unfold count_step.
    destruct (decide (a = c)) as [->|Hne].
    + rewrite dict_get_set_eq, filter_cons_True by done. simpl. lia.
    + rewrite dict_get_set_ne, filter_cons_False by done. done.
Qed.

Lemma Counter_count text c :
  default 0 (dict_get (Counter text) c) = length (filter (fun x => x = c) text).
Proof. unfold Counter. by rewrite Counter_fold_get. Qed.

(** ** The model on concrete inputs *)

Example abracadabra_frequencies :
  Counter (lit "abracadabra") = [("a", 5); ("b", 2); ("r", 2); ("c", 1); ("d", 1)].
Proof. reflexivity. Qed.

Example abracadabra_package :
  compress_file (lit "abracadabra") [] =
  inr ([Byte.x7c; Byte.xa8; Byte.xf8],
       Some [("a", lit "0"); ("d", lit "100"); ("c", lit "101");
             ("r", lit "110"); ("b", lit "111")],
       [("a", lit "0"); ("d", lit "100"); ("c", lit "101");
        ("r", lit "110"); ("b", lit "111")]).
Proof. reflexivity. Qed.

(** 23 code bits and one padding bit, which decodes as one more "a". *)
Example abracadabra_roundtrip :
  roundtrip (lit "abracadabra") [] = inr (lit "abracadabraa").
Proof. reflexivity. Qed.

Example hello_world_package :
  compress_file (lit "hello world") [] =
  inr ([Byte.xe1; Byte.x5b; Byte.xde; Byte.x51],
       Some [("e", lit "000"); ("d", lit "001"); ("r", lit "010");
             ("w", lit "011"); ("l", lit "10"); ("o", lit "110");
             ("h", lit "1110"); (" ", lit "1111")],
       [("e", lit "000"); ("d", lit "001"); ("r", lit "010");
        ("w", lit "011"); ("l", lit "10"); ("o", lit "110");
        ("h", lit "1110"); (" ", lit "1111")]).
Proof. reflexivity. Qed.

(** * Further properties *)

(** ** Frequencies in the tree *)

Lemma dict_set_sum (m : dict ascii nat) k v :
  list_sum (map snd (dict_set m k v)) + default 0 (dict_get m k) =
  list_sum (map snd m) + v.
Proof.
  induction m as [|[k' v'] m IH]; cbn [dict_set dict_get]; [simpl; lia|].
  destruct (decide (k' = k)) as [->|Hne].
  - simpl. lia.
  - simpl. lia.
Qed.

Lemma Counter_fold_sum text : ∀ m,
  list_sum (map snd (fold_left count_step text m)) =
  list_sum (map snd m) + length text.
Proof.
  induction text as [|a text IH]; intros m; cbn [fold_left length]; [lia|].
  rewrite IH. unfold count_step.
  pose proof (dict_set_sum m a (default 0 (dict_get m a) + 1)). lia.
Qed.

Lemma Counter_sum text : list_sum (map snd (Counter text)) = length text.
Proof. unfold Counter. by rewrite Counter_fold_sum. Qed.

Lemma Counter_elem text c f :
  (c, f) ∈ Counter text ↔ c ∈ text ∧ f = occurrences c text.
Proof.
  pose proof (Counter_count text c) as Hcount. split.
  - intros Hin. split.
    + apply Counter_keys. apply list_elem_of_fmap. by exists (c, f).
    + apply dict_get_elem in Hin; [|apply Counter_NoDup].
      rewrite Hin in Hcount. done.
  - intros [Hc ->]. apply Counter_keys in Hc.
    apply list_elem_of_fmap in Hc as ([c' f'] & -> & Hin). simpl.
    pose proof Hin as Hin'.
    apply dict_get_elem in Hin; [|apply Counter_NoDup].
    pose proof (Counter_count text c') as Hc. rewrite Hin in Hc. simpl in Hc.
    unfold occurrences. by rewrite <- Hc.
Qed.

(** X1: the root of the tree of a non-empty text has the length of the text
    as frequency, and the symbol-carrying nodes are the distinct symbols of
    the text, each once, with its number of occurrences. *)
Theorem build_huffman_tree_frequencies (text : str) :
  text ≠ [] →
  ∃ root,
    build_huffman_tree text = inr (Some root) ∧
    freq root = length text ∧
    NoDup (map fst (node_items root)) ∧
    ∀ c f, (c, f) ∈ node_items root ↔ c ∈ text ∧ f = occurrences c text.
Proof.
  intros Hne.
  destruct (build_huffman_tree_spec text Hne) as (root & c & Hb & Hr & Hi & _).
  exists root. split_and!; [done| | |].
  - by rewrite (huffman_tree_freq root Hr), Hi, Counter_sum.
  - rewrite Hi. apply Counter_NoDup.
  - intros a f. rewrite Hi. apply Counter_elem.
Qed.

(** The tree of "abracadabra". *)
Lemma build_huffman_tree_frequencies_witness :
  ∃ root,
    build_huffman_tree (lit "abracadabra") = inr (Some root) ∧
    freq root = 11 ∧
    NoDup (map fst (node_items root)) ∧
    ∀ c f, (c, f) ∈ node_items root ↔
           c ∈ lit "abracadabra" ∧ f = occurrences c (lit "abracadabra").
Proof.
  apply (build_huffman_tree_frequencies (lit "abracadabra")). discriminate.
Defined.

(** ** Invariants of the merge loop *)

(** A property of nodes that holds for the initial nodes and that a merge of
    [node1] and [node2] keeps, given that [node1] was popped before [node2],
    holds for the root. *)
Lemma merge_loop_invariant (P : Node → Prop) :
  (∀ x y, P x → P y → freq x ≤ freq y →
          P (mkNode None (freq x + freq y) (Some x) (Some y))) →
  ∀ fuel heap root,
    heap_ok heap → Forall P heap →
    merge_loop fuel heap = inr [root] → P root.
Proof.
  intros Hstep. induction fuel as [|fuel IH]; intros heap root Hok HP;
    cbn [merge_loop].
  - case_decide; [done|]. intros [= ->]. by apply Forall_inv in HP.
  - destruct (decide (1 < length heap)) as [Hl|Hl].
    + assert (Hne : heap ≠ []) by (intros ->; simpl in Hl; lia).
      destruct (heappop_spec heap Hne Hok) as (x & h1 & -> & Hp1 & Hok1 & Hmin1).
      rewrite bind_inr.
      assert (Hne1 : h1 ≠ []).
      { intros ->. apply Permutation_length in Hp1. simpl in Hp1. lia. }
      destruct (heappop_spec h1 Hne1 Hok1) as (y & h2 & -> & Hp2 & Hok2 & Hmin2).
      rewrite bind_inr.
      destruct (heappush_spec h2
                  (mkNode None (freq x + freq y) (Some x) (Some y)) Hok2)
        as (h3 & -> & Hp3 & Hok3).
      rewrite bind_inr.
      assert (HP' : Forall P (x :: y :: h2)) by (by rewrite <- Hp2, <- Hp1).
      apply Forall_cons in HP' as [Hx HP']. apply Forall_cons in HP' as [Hy HP2].
      apply IH; [done|]. rewrite Hp3. apply Forall_cons. split; [|done].
      apply Hstep; [done|done|]. apply Hmin1. rewrite Hp1, Hp2.
      right. by left.
    + intros [= ->]. by apply Forall_inv in HP.
Qed.

(** X2: in the tree the builder returns, the left child of every merged
    node (the node popped first) has a frequency at most that of the right
    child. *)
Theorem build_huffman_tree_children_ordered (text : str) (root : Node) :
  build_huffman_tree text = inr (Some root) → children_ordered root = true.
Proof.
  unfold build_huffman_tree. intros Hb.
  destruct (initial_heap_spec (Counter text)) as (Hts & _).
  set (heap0 := map _ (Counter text)) in *.
  destruct (heapify_spec heap0) as (h & Hh & Hp & Hok).
  rewrite Hh, bind_inr in Hb.
  destruct (merge_loop (length h) h) as [e|h'] eqn:Hm; [done|].
  rewrite bind_inr in Hb. injection Hb as Hhead.
  assert (Hone : h' = [root]).
  { destruct (decide (h = [])) as [->|Hne].
    - cbn in Hm. injection Hm as <-. done.
    - destruct (merge_loop_spec (length h) h) as (r & c & Hm' & _);
        [lia|done|done|by rewrite Hp|].
      rewrite Hm' in Hm. injection Hm as <-. simpl in Hhead. congruence. }
  subst h'.
  apply (merge_loop_invariant (fun n => children_ordered n = true))
    with (fuel := length h) (heap := h); [|done| |done].
  - intros x y Hx Hy Hle. cbn [children_ordered]. rewrite Hx, Hy.
    apply Nat.leb_le in Hle. by rewrite Hle.
  - rewrite Hp. unfold heap0. apply Forall_forall. intros n Hn.
    apply list_elem_of_fmap in Hn as ([c f] & -> & _). done.
Qed.

(** The tree of "abracadabra". *)
Lemma build_huffman_tree_children_ordered_witness :
  ∃ root,
    build_huffman_tree (lit "abracadabra") = inr (Some root) ∧
    children_ordered root = true.
Proof.
  eexists. split; [reflexivity|].
  eapply (build_huffman_tree_children_ordered (lit "abracadabra")).
  reflexivity.
Defined.

(** ** Code lengths *)

Lemma leaves_length_pos n : huffman_tree n → 1 ≤ length (leaves n []).
Proof.
  induction 1 as [c f|l r Hl IHl Hr IHr]; [simpl; lia|].
  rewrite leaves_node by done. rewrite length_app, !length_map. lia.
Qed.

Lemma leaves_depth_bound n :
  huffman_tree n →
  ∀ e, e ∈ leaves n [] → length e.2 + 1 ≤ length (leaves n []).
Proof.
  induction 1 as [c f|l r Hl IHl Hr IHr]; intros e He.
  - simpl in He. apply list_elem_of_singleton in He as ->. simpl. lia.
  - rewrite leaves_node in * by done. rewrite length_app, !length_map.
    pose proof (leaves_length_pos l Hl). pose proof (leaves_length_pos r Hr).
    apply elem_of_app in He as [He|He];
      apply list_elem_of_fmap in He as ([[c1 f1] p1] & -> & He); simpl.
    + specialize (IHl _ He). simpl in IHl. lia.
    + specialize (IHr _ He). simpl in IHr. lia.
Qed.

(** What a first call on a non-empty text writes as code table. *)
Lemma compress_file_fresh text :
  text ≠ [] →
  ∃ root byte_data,
    build_huffman_tree text = inr (Some root) ∧ huffman_tree root ∧
    node_items root ≡ₚ Counter text ∧
    compress_file text [] =
      inr (byte_data, Some (node_paths root []), node_paths root []).
Proof.
  intros Hne.
  destruct (compress_file_spec text [] Hne) as
    (root & bs & enc & Hb & Hr & Hi & Hc & _).
  destruct (fresh_codes text root Hi) as [Hfresh _]. rewrite Hfresh in Hc.
  by exists root, bs.
Qed.

(** X3: for a text with n >= 2 distinct symbols, every code of the table a
    first call writes is a string of "0" and "1" with at least 1 and at most
    n - 1 characters. *)
Theorem compress_file_code_lengths (text : str) :
  2 ≤ length (Counter text) →
  ∃ byte_data table codes_default,
    compress_file text [] = inr (byte_data, Some table, codes_default) ∧
    ∀ c code, dict_get table c = Some code →
      Forall is_bit code ∧ 1 ≤ length code ≤ length (Counter text) - 1.
Proof.
  intros Hn.
  assert (Hne : text ≠ []) by (intros ->; simpl in Hn; lia).
  destruct (compress_file_fresh text Hne) as (root & bs & _ & Hr & Hi & Hc).
  eexists _, _, _. split; [exact Hc|]. intros c code Hg.
  apply dict_get_Some_elem, node_paths_elem in Hg as [f Hin].
  apply Permutation_length in Hi as Hlen.
  unfold node_items in Hlen. rewrite length_map in Hlen.
  pose proof (leaves_bits root Hr _ Hin) as Hbits.
  pose proof (leaves_depth_bound root Hr _ Hin) as Hd.
  pose proof (leaves_nonempty root Hr) as Hnonempty.
  unfold node_items in Hnonempty. rewrite length_map in Hnonempty.
  specialize (Hnonempty ltac:(lia) _ Hin). simpl in *.
  split; [done|]. destruct code; [done|]. simpl in *. lia.
Qed.

(** "abracadabra" has 5 distinct symbols. *)
Lemma compress_file_code_lengths_witness :
  ∃ byte_data table codes_default,
    compress_file (lit "abracadabra") [] =
      inr (byte_data, Some table, codes_default) ∧
    ∀ c code, dict_get table c = Some code →
      Forall is_bit code ∧
      1 ≤ length code ≤ length (Counter (lit "abracadabra")) - 1.
Proof.
  apply (compress_file_code_lengths (lit "abracadabra")). vm_compute. lia.
Defined.

(** ** More frequent symbols get codes that are not longer *)

Lemma huffman_tree_kraft n :
  huffman_tree n →
  ∀ d ds, kraft (d :: ds) →
          kraft (map (fun e => d + length e.2) (leaves n []) ++ ds).
Proof.
  induction 1 as [c f|l r Hl IHl Hr IHr]; intros d ds Hk.
  - simpl. by rewrite Nat.add_0_r.
  - rewrite leaves_node by done. rewrite map_app, !map_map, <- app_assoc.
    assert (Hk' : kraft (S d :: S d :: ds)) by (by eapply kraft_split).
    specialize (IHr (S d) (S d :: ds) Hk').
    eapply kraft_perm in IHr; [|symmetry; apply Permutation_middle].
    specialize (IHl (S d) _ IHr).
    match goal with
    | |- kraft ?L =>
        replace L with
          (map (fun e => S d + length e.2) (leaves l []) ++
           map (fun e => S d + length e.2) (leaves r []) ++ ds)
    end; [exact IHl|].
    f_equal; [|f_equal]; apply map_ext; intros [[c f] p]; simpl; lia.
Qed.

Lemma weighted_path_length_profile n :
  weighted_path_length n =
  profile_cost (map (fun '(_, f, p) => (f, length p)) (leaves n [])).
Proof.
  unfold weighted_path_length, profile_cost. rewrite map_map. f_equal.
  apply map_ext. by intros [[??]?].
Qed.

(** X4: of two symbols of a non-empty text, the one that occurs more often
    gets a code that is not longer, in the table a first call writes. *)
Theorem compress_file_code_lengths_monotone (text : str) :
  text ≠ [] →
  ∃ byte_data table codes_default,
    compress_file text [] = inr (byte_data, Some table, codes_default) ∧
    ∀ a b ca cb,
      dict_get table a = Some ca → dict_get table b = Some cb →
      occurrences a text < occurrences b text →
      length cb ≤ length ca.
Proof.
  intros Hne.
  destruct (build_huffman_tree_spec text Hne) as
    (root & c & Hb & Hr & Hi & Hg & Hc).
  destruct (compress_file_fresh text Hne) as (root' & bs & Hb' & _ & _ & Hcf).
  rewrite Hb in Hb'. injection Hb' as <-.
  eexists _, _, _. split; [exact Hcf|]. intros a b ca cb Ha Hbb Hocc.
  apply dict_get_Some_elem, node_paths_elem in Ha as [fa Ha].
  apply dict_get_Some_elem, node_paths_elem in Hbb as [fb Hbb].
  assert (Hfa : fa = occurrences a text).
  { apply (Counter_elem text a fa). rewrite <- Hi. unfold node_items.
    apply list_elem_of_fmap. by exists (a, fa, ca). }
  assert (Hfb : fb = occurrences b text).
  { apply (Counter_elem text b fb). rewrite <- Hi. unfold node_items.
    apply list_elem_of_fmap. by exists (b, fb, cb). }
  destruct (decide (length cb ≤ length ca)) as [|Hlt]; [done|]. exfalso.
  apply elem_of_Permutation in Ha as [l1 Hl1].
  assert (Hb1 : (b, fb, cb) ∈ l1).
  { rewrite Hl1 in Hbb. apply elem_of_cons in Hbb as [Heq|?]; [|done].
    injection Heq as -> -> ->. lia. }
  apply elem_of_Permutation in Hb1 as [l2 Hl2].
  assert (Hl : leaves root [] ≡ₚ (a, fa, ca) :: (b, fb, cb) :: l2)
    by (by rewrite Hl1, Hl2).
  set (g := fun e : ascii * nat * str => (e.1.2, length e.2)).
  set (p1 := (fb, length ca) :: (fa, length cb) :: map g l2).
  assert (Hk : kraft (map snd p1)).
  { pose proof (huffman_tree_kraft root Hr 0 [] kraft_one) as Hk.
    rewrite app_nil_r in Hk. eapply kraft_perm; [|exact Hk].
    rewrite Hl. unfold p1. cbn [map snd]. rewrite map_map.
    done. }
  assert (Hw : map fst p1 ≡ₚ map snd (Counter text)).
  { rewrite <- Hi. unfold node_items. rewrite map_map, Hl.
    unfold p1. cbn [map fst snd]. rewrite map_map.
    rewrite (Permutation_swap fb fa). do 2 f_equiv.
    apply Permutation_refl' , map_ext. by intros [[??]?]. }
  pose proof (greedy_lower_bound _ _ Hg p1 Hk Hw) as Hlow.
  rewrite <- Hc, weighted_path_length_profile in Hlow.
  rewrite (map_ext _ g) in Hlow by (by intros [[??]?]).
  rewrite (profile_cost_perm _ _ (Permutation_map g Hl)) in Hlow.
  unfold p1, profile_cost in Hlow. simpl in Hlow.
  rewrite <- Hfa, <- Hfb in Hocc. clear -Hlow Hocc Hlt.
  generalize dependent (list_sum (map (λ '(w, d), w * d) (map g l2))).
  generalize dependent (length ca). generalize dependent (length cb).
  intros. nia.
Qed.

(** In "abracadabra" the symbol "a" occurs most often. *)
Lemma compress_file_code_lengths_monotone_witness :
  ∃ byte_data table codes_default,
    compress_file (lit "abracadabra") [] =
      inr (byte_data, Some table, codes_default) ∧
    ∀ a b ca cb,
      dict_get table a = Some ca → dict_get table b = Some cb →
      occurrences a (lit "abracadabra") < occurrences b (lit "abracadabra") →
      length cb ≤ length ca.
Proof.
  apply (compress_file_code_lengths_monotone (lit "abracadabra")).
  discriminate.
Defined.

(** ** The number of code bits *)

Lemma NoDup_map_elem_eq {A B} (g : A → B) (l : list A) x y :
  NoDup (map g l) → x ∈ l → y ∈ l → g x = g y → x = y.
Proof.
  induction l as [|a l IH]; intros Hnd Hx Hy Heq.
  - by apply elem_of_nil in Hx.
  - cbn [map] in Hnd. apply NoDup_cons in Hnd as [Ha Hnd].
    apply elem_of_cons in Hx as [->|Hx], Hy as [->|Hy]; try done.
    + exfalso. apply Ha. rewrite Heq. apply list_elem_of_fmap. by exists y.
    + exfalso. apply Ha. rewrite <- Heq. apply list_elem_of_fmap. by exists x.
    + by apply IH.
Qed.

Lemma sum_indicator (L : list (ascii * nat * str)) a f code :
  NoDup (map (fun e => e.1.1) L) → (a, f, code) ∈ L →
  list_sum (map (fun e => (if decide (a = e.1.1) then 1 else 0) * length e.2) L)
  = length code.
Proof.
  induction L as [|[[c g] p] L IH]; intros Hnd Hin.
  - by apply elem_of_nil in Hin.
  - cbn [map] in Hnd. apply NoDup_cons in Hnd as [Hc Hnd]. simpl in Hc.
    cbn [map list_sum]. apply elem_of_cons in Hin as [[= <- <- <-]|Hin].
    + simpl. rewrite decide_True by done.
      assert (Hz : list_sum (map (fun e : ascii * nat * str =>
                     (if decide (a = e.1.1) then 1 else 0) * length e.2) L) = 0).
      { clear -Hc. induction L as [|[[c g] p] L IH]; [done|].
        simpl in *. apply not_elem_of_cons in Hc as [Hne Hc].
        rewrite decide_False by done. rewrite IH by done. lia. }
      rewrite Hz. lia.
    + simpl. rewrite decide_False.
      * rewrite IH by done. lia.
      * intros ->. apply Hc. apply list_elem_of_fmap. by exists (c, f, code).
Qed.

Lemma encoded_length_sum (L : list (ascii * nat * str)) text enc :
  NoDup (map (fun e => e.1.1) L) →
  Forall2 (fun c code => ∃ f, (c, f, code) ∈ L) text enc →
  length (concat enc) =
  list_sum (map (fun e => occurrences e.1.1 text * length e.2) L).
Proof.
  intros Hnd. induction 1 as [|a code text enc [f Hin] _ IH].
  - simpl. induction L as [|e L IHL]; [done|]. simpl.
    apply NoDup_cons in Hnd as [_ Hnd]. by rewrite <- IHL.
  - cbn [concat]. rewrite length_app, IH.
    rewrite <- (sum_indicator L a f code Hnd Hin).
    rewrite <- list_sum_map_add. f_equal. apply map_ext. intros [[c g] p].
    unfold occurrences. simpl.
    destruct (decide (a = c)) as [->|Hne].
    + rewrite filter_cons_True by done. simpl. lia.
    + rewrite filter_cons_False by done. lia.
Qed.

(** X5: for a non-empty text and any content of the default dict, the
    number of code bits written (before padding) is the weighted path length
    of the tree, and no prefix-code tree for the text's frequencies gives
    fewer bits. *)
Theorem encoded_text_length_minimal
    (text : str) (codes_default : dict ascii str) :
  text ≠ [] →
  ∃ root e,
    build_huffman_tree text = inr (Some root) ∧
    encoded_text text codes_default = inr e ∧
    length e = weighted_path_length root ∧
    ∀ t, code_tree_for (Counter text) t →
         length e ≤ code_tree_cost (Counter text) t.
Proof.
  intros Hne.
  destruct (build_huffman_tree_spec text Hne) as
    (root & c & Hb & Hr & Hi & Hg & Hc).
  destruct (compress_file_spec text codes_default Hne) as
    (root' & bs & enc & Hb' & _ & _ & _ & Henc & He & _).
  rewrite Hb in Hb'. injection Hb' as <-.
  assert (Hlen : length (concat enc) = weighted_path_length root).
  { rewrite (encoded_length_sum (leaves root []) text enc).
    - unfold weighted_path_length. f_equal. apply map_ext_in.
      intros [[a f] p] Hin. apply list_elem_of_In in Hin. simpl.
      f_equal. symmetry. apply (Counter_elem text a f). rewrite <- Hi.
      unfold node_items. apply list_elem_of_fmap. by exists (a, f, p).
    - by eapply leaves_chars_NoDup.
    - eapply Forall2_impl; [exact Henc|]. by intros a code [_ ?]. }
  exists root, (concat enc). split_and!; try done.
  intros t Ht. rewrite Hlen, Hc.
  apply greedy_le_code_tree_cost; [apply Counter_NoDup|done|done].
Qed.

(** "abracadabra" takes 23 code bits. *)
Lemma encoded_text_length_minimal_witness :
  ∃ root e,
    build_huffman_tree (lit "abracadabra") = inr (Some root) ∧
    encoded_text (lit "abracadabra") [] = inr e ∧
    length e = weighted_path_length root ∧
    ∀ t, code_tree_for (Counter (lit "abracadabra")) t →
         length e ≤ code_tree_cost (Counter (lit "abracadabra")) t.
Proof.
  apply (encoded_text_length_minimal (lit "abracadabra") []). discriminate.
Defined.

(** ** The default dict across calls *)

Lemma bit_string_inj bs1 bs2 : bit_string bs1 = bit_string bs2 → bs1 = bs2.
Proof.
  intros Heq.
  assert (Hn : map Byte.to_N bs1 = map Byte.to_N bs2)
    by (by rewrite <- !msb_first_bytes_bit_string, Heq).
  clear Heq. revert bs2 Hn.
  induction bs1 as [|b1 bs1 IH]; intros [|b2 bs2] Hn; try done.
  injection Hn as Hb Hn. f_equal; [|by apply IH].
  pose proof (Byte.of_to_N b1) as H1. rewrite Hb, Byte.of_to_N in H1.
  congruence.
Qed.

Lemma encoded_unique (L : list (ascii * nat * str)) text : ∀ enc1 enc2,
  NoDup (map (fun e => e.1.1) L) →
  Forall2 (fun c code => ∃ f, (c, f, code) ∈ L) text enc1 →
  Forall2 (fun c code => ∃ f, (c, f, code) ∈ L) text enc2 →
  enc1 = enc2.
Proof.
  induction text as [|a text IH]; intros enc1 enc2 Hnd H1 H2.
  - apply Forall2_nil_inv_l in H1, H2. by subst.
  - apply Forall2_cons_inv_l in H1 as (c1 & e1 & [f1 Hc1] & H1 & ->).
    apply Forall2_cons_inv_l in H2 as (c2 & e2 & [f2 Hc2] & H2 & ->).
    f_equal; [|by apply IH].
    assert (Heq : (a, f1, c1) = (a, f2, c2)); [|congruence].
    by apply (NoDup_map_elem_eq (fun e => e.1.1) L).
Qed.

(** The bytes are the same whatever the default dict holds. *)
Lemma compress_file_all_states text :
  text ≠ [] →
  ∃ root byte_data,
    build_huffman_tree text = inr (Some root) ∧
    huffman_tree root ∧ node_items root ≡ₚ Counter text ∧
    ∀ st, compress_file text st =
            inr (byte_data, Some (fold_left set_code (leaves root []) st),
                 fold_left set_code (leaves root []) st).
Proof.
  intros Hne.
  destruct (compress_file_spec text [] Hne) as
    (root & bs1 & enc1 & Hb1 & Hr & Hi & Hc1 & Henc1 & _ & Hbits1 & _).
  exists root, bs1. split_and!; try done. intros st.
  destruct (compress_file_spec text st Hne) as
    (root' & bs2 & enc2 & Hb2 & _ & _ & Hc2 & Henc2 & _ & Hbits2 & _).
  rewrite Hb1 in Hb2. injection Hb2 as <-.
  assert (Henc : enc1 = enc2).
  { apply (encoded_unique (leaves root []) text).
    - by eapply leaves_chars_NoDup.
    - eapply Forall2_impl; [exact Henc1|]. by intros a code [_ ?].
    - eapply Forall2_impl; [exact Henc2|]. by intros a code [_ ?]. }
  subst enc2. rewrite <- Hbits1 in Hbits2. apply bit_string_inj in Hbits2.
  by subst bs2.
Qed.

(** X6: the bytes written for a text do not depend on what earlier calls
    left in the default dict, and neither do the codes the table gives to the
    symbols of the text; only the other entries of the table differ. *)
Theorem compress_file_bytes_independent
    (text : str) (codes_default : dict ascii str) :
  ∃ byte_data codes codes' st st',
    compress_file text codes_default = inr (byte_data, codes, st) ∧
    compress_file text [] = inr (byte_data, codes', st') ∧
    ∀ c, c ∈ text → codes_getitem codes c = codes_getitem codes' c.
Proof.
  destruct (decide (text = [])) as [->|Hne].
  - by exists [], None, None, codes_default, [].
  - destruct (compress_file_all_states text Hne) as
      (root & bs & _ & Hr & Hi & Hall).
    rewrite (Hall codes_default), (Hall []).
    eexists _, _, _, _, _. split_and!; try done. intros c Hc.
    destruct (leaves_covers text root c Hi Hc) as (f & p & Hin).
    unfold codes_getitem, dict_getitem.
    rewrite !(fold_set_code_get _ _ c f p);
      try done; by eapply leaves_chars_NoDup.
Qed.

Lemma dict_set_same {K V} `{EqDecision K} (d : dict K V) k v :
  dict_get d k = Some v → dict_set d k v = d.
Proof.
  induction d as [|[k' v'] d IH]; cbn [dict_get dict_set]; [done|].
  destruct (decide (k' = k)) as [->|Hne].
  - by intros [= ->].
  - intros Hg. by rewrite IH.
Qed.

Lemma fold_set_code_same L : ∀ d,
  (∀ c f p, (c, f, p) ∈ L → dict_get d c = Some p) →
  fold_left set_code L d = d.
Proof.
  induction L as [|[[c f] p] L IH]; intros d Hd; [done|].
  cbn [fold_left set_code]. rewrite dict_set_same.
  - apply IH. intros c' f' p' Hin. apply (Hd c' f' p'). by right.
  - apply (Hd c f p). by left.
Qed.

(** X7: a call repeated on the same text right after the first one writes
    the same bytes and the same table and leaves the default dict as it
    is. *)
Theorem compress_file_repeated (text : str) (codes_default : dict ascii str) :
  ∃ byte_data codes st,
    compress_file text codes_default = inr (byte_data, codes, st) ∧
    compress_file text st = inr (byte_data, codes, st).
Proof.
  destruct (decide (text = [])) as [->|Hne].
  - by exists [], None, codes_default.
  - destruct (compress_file_all_states text Hne) as
      (root & bs & _ & Hr & Hi & Hall).
    eexists _, _, _. split; [apply Hall|]. rewrite Hall.
    rewrite fold_set_code_same; [done|]. intros c f p Hin.
    apply (fold_set_code_get _ _ c f p); [|done].
    by eapply leaves_chars_NoDup.
Qed.

Lemma dict_keys_set_prefix {K V} `{EqDecision K} (d : dict K V) k v :
  dict_keys d `prefix_of` dict_keys (dict_set d k v).
Proof.
  rewrite dict_keys_set. case_decide; [done|]. by apply prefix_app_r.
Qed.

Lemma fold_set_code_keys_prefix L : ∀ d,
  dict_keys d `prefix_of` dict_keys (fold_left set_code L d).
Proof.
  induction L as [|[[c f] p] L IH]; intros d; [done|].
  cbn [fold_left set_code]. etrans; [|apply IH]. apply dict_keys_set_prefix.
Qed.

(** X8: a call never removes or reorders what the default dict holds: its
    old keys stay in front, in order; entries of symbols that do not occur in
    the text keep their code; and every symbol of the text is a key
    afterwards. *)
Theorem compress_file_default_dict_grows
    (text : str) (codes_default : dict ascii str) :
  ∃ byte_data codes st,
    compress_file text codes_default = inr (byte_data, codes, st) ∧
    dict_keys codes_default `prefix_of` dict_keys st ∧
    (∀ k, k ∉ text → dict_get st k = dict_get codes_default k) ∧
    (∀ k, k ∈ text → k ∈ dict_keys st).
Proof.
  destruct (decide (text = [])) as [->|Hne].
  - exists [], None, codes_default. split_and!; try done.
    intros k Hk. by apply elem_of_nil in Hk.
  - destruct (compress_file_all_states text Hne) as
      (root & bs & _ & Hr & Hi & Hall).
    eexists _, _, _. split; [apply Hall|]. split_and!.
    + apply fold_set_code_keys_prefix.
    + intros k Hk. apply fold_set_code_get_other. intros Hin. apply Hk.
      apply Counter_keys. unfold dict_keys. rewrite <- Hi.
      unfold node_items. rewrite map_map.
      erewrite map_ext; [exact Hin|]. by intros [[??]?].
    + intros k Hk. destruct (leaves_covers text root k Hi Hk) as (f & p & Hin).
      assert (Hg : dict_get (fold_left set_code (leaves root []) codes_default) k
                   = Some p).
      { apply (fold_set_code_get _ _ k f p); [|done].
        by eapply leaves_chars_NoDup. }
      apply dict_get_Some_elem in Hg. unfold dict_keys.
      apply list_elem_of_fmap. by exists (k, p).
Qed.

(** ** What the scan emits *)

(** Each bit emits at most one symbol, and an emitted symbol is one that the
    table maps to a non-empty bit string. *)
Lemma decode_fold_output codes bits : ∀ cur out,
  let r := fold_left (decode_step (reverse_dict codes)) bits (cur, out) in
  length r.2 ≤ length out + length bits ∧
  ∀ s, s ∈ r.2 → s ∈ out ∨ ∃ code, code ≠ [] ∧ (s, code) ∈ codes.
Proof.
  induction bits as [|b bits IH]; intros cur out; cbn [fold_left].
  - simpl. split; [lia|]. intros s Hs. by left.
  - unfold decode_step at 2 4.
    destruct (dict_get (reverse_dict codes) (cur ++ [b])) as [s0|] eqn:Hg.
    + destruct (IH [] (out ++ [s0])) as [Hlen Hsym]. split.
      * rewrite length_app in Hlen. simpl in *. lia.
      * intros s Hs. destruct (Hsym s Hs) as [Hin|?]; [|by right].
        apply elem_of_app in Hin as [?|Hin]; [by left|].
        apply list_elem_of_singleton in Hin as ->. right.
        exists (cur ++ [b]). split; [by destruct cur|].
        by apply reverse_dict_get_elem.
    + destruct (IH (cur ++ [b]) out) as [Hlen Hsym]. split; [simpl; lia|done].
Qed.

(** X9: decoding with a table of symbols and bit strings returns at most 8
    symbols per byte, and every symbol it returns is one that the table maps
    to a non-empty bit string; a symbol whose only code is the empty string
    is never returned. *)
Theorem decompress_file_output
    (byte_data : list byte) (codes : dict ascii str) :
  ∃ text,
    decompress_file byte_data (Some codes) = inr text ∧
    length text ≤ 8 * length byte_data ∧
    ∀ s, s ∈ text → ∃ code, code ≠ [] ∧ (s, code) ∈ codes.
Proof.
  rewrite decompress_file_eq. eexists. split; [done|].
  destruct (decode_fold_output codes (bit_string byte_data) [] [])
    as [Hlen Hsym].
  rewrite bit_string_length in Hlen. split; [exact Hlen|].
  intros s Hs. destruct (Hsym s Hs) as [Hin|?]; [|done].
  by apply elem_of_nil in Hin.
Qed.

(** X10: a text with at least two distinct symbols, compressed by a first
    call and decompressed, comes back followed by at most 7 more symbols,
    those the padding bits decode to. *)
Theorem roundtrip_phantom_symbols (text : str) :
  2 ≤ length (Counter text) →
  ∃ phantom,
    roundtrip text [] = inr (text ++ phantom) ∧ length phantom ≤ 7.
Proof.
  intros Hn.
  destruct (roundtrip_fresh text Hn) as (root & enc & _ & _ & -> & Hdec).
  unfold decode_loop. rewrite (decode_concat _ text enc _ [] Hdec).
  rewrite decode_out_app. eexists. split; [done|].
  cbn [snd app].
  match goal with
  | |- length (fold_left _ ?bits _).2 ≤ _ =>
      destruct (decode_fold_output (node_paths root []) bits [] [])
        as [Hlen _]
  end.
  rewrite repeat_length in Hlen. cbn [length] in Hlen. lia.
Qed.

(** "abracadabra" comes back as "abracadabraa". *)
Lemma roundtrip_phantom_symbols_witness :
  ∃ phantom,
    roundtrip (lit "abracadabra") [] = inr (lit "abracadabra" ++ phantom) ∧
    length phantom ≤ 7.
Proof.
  apply (roundtrip_phantom_symbols (lit "abracadabra")). vm_compute. lia.
Defined.

(** ** Bytes and bits *)

Lemma format_08b_bits b : Forall is_bit (format_08b (Byte.to_N b)).
Proof.
  destruct b; repeat (constructor; [(by left) || (by right)|]); constructor.
Qed.

Lemma bit_string_bits bs : Forall is_bit (bit_string bs).
Proof.
  induction bs as [|b bs IH]; [constructor|].
  rewrite bit_string_cons. apply Forall_app. split; [apply format_08b_bits|done].
Qed.

(** X11: the packing loop of [compress_file] undoes the expansion of
    [decompress_file]: the bit string of any byte sequence packs to that
    byte sequence, without error. *)
Theorem pack_bit_string (byte_data : list byte) :
  foldM (pack_step (bit_string byte_data))
        (range8 (length (bit_string byte_data))) [] = inr byte_data.
Proof.
  destruct (pack_spec (bit_string byte_data)) as (bs & -> & Hbs & _).
  - apply bit_string_bits.
  - rewrite bit_string_length. lia.
  - f_equal. by apply bit_string_inj.
Qed.

(** ** Decoding with any prefix-free table *)

(** X12: with any table that has distinct symbols, is prefix-free and has no
    empty code, decoding the bytes whose bits are exactly the codes of the
    symbols of a text, in order, returns that text. *)
Theorem decompress_file_prefix_free_table
    (byte_data : list byte) (codes : dict ascii str)
    (text : str) (encoded : list str) :
  NoDup (dict_keys codes) → prefix_free codes →
  (∀ a ca, dict_get codes a = Some ca → ca ≠ []) →
  Forall2 (fun c code => dict_get codes c = Some code) text encoded →
  bit_string byte_data = concat encoded →
  decompress_file byte_data (Some codes) = inr text.
Proof.
  intros Hnd Hpf Hne Henc Hbits.
  rewrite decompress_file_eq, Hbits. unfold decode_loop.
  rewrite <- (app_nil_r (concat encoded)).
  rewrite (decode_concat _ text encoded [] []); [done|].
  eapply Forall2_impl; [exact Henc|]. intros c code Hg.
  apply table_decodes_to; try done.
  - intros a ca Ha. apply (Hne a). by apply dict_get_elem.
  - by apply dict_get_Some_elem.
Qed.

(** The byte 0x58 holds the codes of "abcaaa" for a = 0, b = 10, c = 11. *)
Lemma decompress_file_prefix_free_table_witness :
  decompress_file [Byte.x58]
    (Some [("a", lit "0"); ("b", lit "10"); ("c", lit "11")]) =
  inr (lit "abcaaa").
Proof.
  apply (decompress_file_prefix_free_table [Byte.x58]
           [("a", lit "0"); ("b", lit "10"); ("c", lit "11")] (lit "abcaaa")
           [lit "0"; lit "10"; lit "11"; lit "0"; lit "0"; lit "0"]).
  - apply (bool_decide_unpack _). reflexivity.
  - intros a b ca cb Ha Hb Hne [k Hk]. cbn [dict_get] in Ha, Hb.
    repeat case_decide; simplify_eq/=.
  - intros a ca Ha. cbn [dict_get] in Ha.
    repeat case_decide; by simplify_eq/=.
  - repeat constructor.
  - reflexivity.
Defined.
